(** * Bag-of-words and tf-idf transformers of [week1_embeddings/features.py]

    A shallow embedding of the two classes [BoW] and [TfIdf].

    - Texts are [string]s whose characters are read as code points below 256.
    - Python [int] counters are [nat] (they start at 0 and are only
      incremented); the parameter [k] is a [Z], as it is an arbitrary [int].
    - A [dict] is an insertion-ordered association list with unique keys.
    - A [set] iterates in an order the language does not fix: the order is a
      parameter, constrained only to enumerate the distinct elements once.
    - Exceptions are values of [exn]; a method maps the object to an outcome
      and the object afterwards.
    - numpy floats are idealised as real numbers: [np.log] is [ln], the
      Euclidean norm is [sqrt] of the sum of squares, [EPS] is 1/10000, and the
      final cast to float32 is the identity. *)

From Stdlib Require Import String Ascii List Bool Arith ZArith Lia.
From Stdlib Require Import Permutation Sorted.
From Stdlib Require Import Reals Lra.
Import ListNotations.

Open Scope string_scope.
Open Scope nat_scope.

(** ** Exceptions and outcomes *)

Inductive exn : Type :=
| AssertionError
| KeyError
| TypeError
| ValueError.

Inductive result (A : Type) : Type :=
| Ok (a : A)
| Raise (e : exn).

Arguments Ok {A} a.
Arguments Raise {A} e.

Definition rbind {A B} (r : result A) (f : A -> result B) : result B :=
  match r with
  | Ok a => f a
  | Raise e => Raise e
  end.

Notation "x <- c ;; k" := (rbind c (fun x => k))
  (at level 61, c at next level, right associativity).

(** Loops whose body may raise. *)
Fixpoint foldM {A B} (f : A -> B -> result A) (a : A) (l : list B) : result A :=
  match l with
  | [] => Ok a
  | b :: l' => a' <- f a b ;; foldM f a' l'
  end.

(** A list comprehension whose element expression may raise. *)
Fixpoint mapM {A B} (f : A -> result B) (l : list A) : result (list B) :=
  match l with
  | [] => Ok []
  | a :: l' => b <- f a ;; bs <- mapM f l' ;; Ok (b :: bs)
  end.

(** A method of an object of class [S]: the outcome and the object after. *)
Definition method (S A : Type) : Type := S -> result A * S.

(** ** Strings: [str.split()] and [str.join] *)

(** [str.isspace] on code points below 256. *)
Definition isspace (c : ascii) : bool :=
  let n := nat_of_ascii c in
  ((9 <=? n) && (n <=? 13)) || ((28 <=? n) && (n <=? 32))
  || (n =? 133) || (n =? 160).

Definition emit (cur : string) (l : list string) : list string :=
  if string_dec cur "" then l else cur :: l.

(** [split_from cur s]: the tokens of [s] when [cur] is the token being read. *)
Fixpoint split_from (cur : string) (s : string) : list string :=
  match s with
  | EmptyString => emit cur []
  | String c rest =>
      if isspace c then emit cur (split_from "" rest)
      else split_from (cur ++ String c "") rest
  end.

(** [s.split()] *)
Definition split (s : string) : list string := split_from "" s.

(** [sep.join(l)] *)
Definition join (sep : string) (l : list string) : string := String.concat sep l.

(** ** Dictionaries *)

Definition dict (V : Type) : Type := list (string * V).

Definition keys {V} (d : dict V) : list string := map fst d.
Definition values {V} (d : dict V) : list V := map snd d.

(** [d[w]] *)
Fixpoint getitem {V} (d : dict V) (w : string) : result V :=
  match d with
  | [] => Raise KeyError
  | (w', v) :: d' => if string_dec w' w then Ok v else getitem d' w
  end.

(** [d[w] = v]: an existing key keeps its position, a new one goes last. *)
Fixpoint setitem {V} (d : dict V) (w : string) (v : V) : dict V :=
  match d with
  | [] => [(w, v)]
  | (w', v') :: d' =>
      if string_dec w' w then (w', v) :: d' else (w', v') :: setitem d' w v
  end.

(** [w in d] *)
Definition contains {V} (d : dict V) (w : string) : bool :=
  existsb (String.eqb w) (keys d).

(** [{w: g(w) for w in l}] *)
Definition dict_comp {V} (g : string -> V) (l : list string) : dict V :=
  fold_left (fun d w => setitem d w (g w)) l [].

(** [{w: g(w) for w in l}] where [g(w)] may raise. *)
Definition dict_compM {V} (g : string -> result V) (l : list string)
  : result (dict V) :=
  foldM (fun d w => v <- g w ;; Ok (setitem d w v)) [] l.

(** [d[w] += 1] *)
Definition incr (d : dict nat) (w : string) : result (dict nat) :=
  v <- getitem d w ;; Ok (setitem d w (v + 1)).

(** [w in l] for a list [l]. *)
Definition list_contains (l : list string) (w : string) : bool :=
  existsb (String.eqb w) l.

(** ** Sorting and slicing *)

(** [sorted(l, key=key, reverse=True)]: descending and stable. *)
Fixpoint insert_desc {A} (key : A -> nat) (x : A) (l : list A) : list A :=
  match l with
  | [] => [x]
  | y :: ys => if key y <=? key x then x :: y :: ys
               else y :: insert_desc key x ys
  end.

Definition sorted_desc {A} (key : A -> nat) (l : list A) : list A :=
  fold_right (insert_desc key) [] l.

(** [l[:k]], with Python's reading of a negative [k]. *)
Definition slice_to {A} (k : Z) (l : list A) : list A :=
  if (k <? 0)%Z then firstn (Z.to_nat (Z.of_nat (length l) + k)) l
  else firstn (Z.to_nat k) l.

(** [enumerate(l)] *)
Definition enumerate {A} (l : list A) : list (nat * A) :=
  combine (seq 0 (length l)) l.

(** [np.stack(rows)] of one-dimensional rows: at least one row, all of the
    same length. *)
Definition np_stack {A} (rows : list (list A)) : result (list (list A)) :=
  match rows with
  | [] => Raise ValueError
  | r :: rs =>
      if forallb (fun r' => length r' =? length r) rs then Ok rows
      else Raise ValueError
  end.

(** ** Iteration order of a [set] *)

Class SetIteration : Type := {
  set_iter : list string -> list string;
  set_iter_NoDup : forall l, NoDup (set_iter l);
  set_iter_In : forall l x, In x (set_iter l) <-> In x l
}.

(** One admissible order. *)
#[global, refine] Instance kept_order : SetIteration :=
  {| set_iter := nodup string_dec |}.
Proof.
  - intros l. apply NoDup_nodup.
  - intros l x. apply nodup_In.
Defined.

(** ** Vocabulary of a corpus, as the specification speaks of it *)

Definition tokens (X : list string) : list string := flat_map split X.

Definition occurrences (X : list string) (w : string) : nat :=
  count_occ string_dec (tokens X) w.

Definition distinct_token_count (X : list string) : nat :=
  length (nodup string_dec (tokens X)).

Definition occurs_in (w : string) (d : string) : bool :=
  if in_dec string_dec w (split d) then true else false.

(** Document frequency: the number of documents with at least one [w]. *)
Definition df (X : list string) (w : string) : nat :=
  length (filter (occurs_in w) X).

(** ** class BoW *)

Record BoW : Type := mkBoW {
  BoW_k : Z;
  BoW_bow : option (list string)
}.

(** [BoW.__init__] *)
Definition BoW_init (k : Z) : BoW := mkBoW k None.

Section Transformers.
Context {SI : SetIteration}.

(** The counting loops of [BoW.fit]. *)
Definition count_occurrences (res : dict nat) (X : list string)
  : result (dict nat) :=
  foldM (fun res text => foldM incr res (split text)) res X.

(** [sorted(res, key=lambda x: res[x], reverse=True)] *)
Definition sorted_keys (res : dict nat) : result (list string) :=
  decorated <- mapM (fun x => v <- getitem res x ;; Ok (x, v)) (keys res) ;;
  Ok (map fst (sorted_desc snd decorated)).

Definition BoW_fit_bow (k : Z) (X : list string) : result (list string) :=
  let vocab := set_iter (split (join " " X)) in
  let res := dict_comp (fun _ => 0) vocab in
  res <- count_occurrences res X ;;
  ks <- sorted_keys res ;;
  Ok (slice_to k ks).

(** [BoW.fit]; it returns the object itself. *)
Definition BoW_fit (X : list string) : method BoW BoW :=
  fun self =>
    match BoW_fit_bow (BoW_k self) X with
    | Ok bow => let self' := mkBoW (BoW_k self) (Some bow) in (Ok self', self')
    | Raise e => (Raise e, self)
    end.

End Transformers.

(** [BoW._text_to_bow]; the counts are exact in float32 below 2^24. *)
Definition BoW_text_to_bow (self : BoW) (text : string) : result (list nat) :=
  match BoW_bow self with
  | None => Raise TypeError
  | Some bow =>
      let result0 := dict_comp (fun _ => 0) bow in
      result1 <- foldM (fun res word =>
                          if list_contains bow word then incr res word
                          else Ok res) result0 (split text) ;;
      Ok (values result1)
  end.

(** [BoW.transform] *)
Definition BoW_transform (X : list string) : method BoW (list (list nat)) :=
  fun self =>
    match BoW_bow self with
    | None => (Raise AssertionError, self)
    | Some _ =>
        (rows <- mapM (BoW_text_to_bow self) X ;; np_stack rows, self)
    end.

(** [BoW.get_vocabulary] *)
Definition BoW_get_vocabulary : method BoW (option (list string)) :=
  fun self => (Ok (BoW_bow self), self).

(** ** class TfIdf *)

Definition EPS : R := (1 / 10000)%R.

(** [np.log], meaningful on positive arguments. *)
Definition np_log (x : R) : R := ln x.

Definition sum_squares (v : list R) : R :=
  fold_right (fun x acc => x * x + acc)%R 0%R v.

(** [np.linalg.norm] of a vector. *)
Definition l2norm (v : list R) : R := sqrt (sum_squares v).

Record TfIdf : Type := mkTfIdf {
  TfIdf_k : option Z;
  TfIdf_normalize : bool;
  TfIdf_idf : option (dict R)
}.

(** [TfIdf.__init__]: the table starts as an empty [OrderedDict], not [None]. *)
Definition TfIdf_init (k : option Z) (normalize : bool) : TfIdf :=
  mkTfIdf k normalize (Some []).

(** Truth value of [self.k] in [if self.k:]. *)
Definition truthy (k : option Z) : bool :=
  match k with
  | None => false
  | Some z => negb (z =? 0)%Z
  end.

Section TfIdfFit.
Context {SI : SetIteration}.

(** The document-frequency loop of [TfIdf.fit]. *)
Definition count_documents (idf : dict nat) (X : list string)
  : result (dict nat) :=
  foldM (fun idf text =>
           let text := split text in
           let text_set := set_iter text in
           foldM incr idf text_set) idf X.

(** The [if self.k:] block of [TfIdf.fit]. *)
Definition restrict (k : option Z) (idf : dict nat) : result (dict nat) :=
  if truthy k then
    let k' := match k with Some z => z | None => 0%Z end in
    ks <- sorted_keys idf ;;
    dict_compM (fun word => getitem idf word)
      (map snd (filter (fun iw => (Z.of_nat (fst iw) <? k')%Z) (enumerate ks)))
  else Ok idf.

(** The counts held in [self.idf] before the last line of [TfIdf.fit]. *)
Definition TfIdf_fit_df (k : option Z) (X : list string) : result (dict nat) :=
  let vocab := set_iter (split (join " " X)) in
  let idf := dict_comp (fun _ => 0) vocab in
  idf <- count_documents idf X ;;
  restrict k idf.

(** The last line of [TfIdf.fit]. *)
Definition score (N : nat) (idf : dict nat) : result (dict R) :=
  dict_compM (fun word =>
                d <- getitem idf word ;;
                Ok (np_log (INR N / INR (d + 1)))) (keys idf).

(** [TfIdf.fit]; it returns the object itself.  Python keeps the counts in
    [self.idf] while it fits; the object is given here as it is once [fit]
    has returned, and is left as it was when a statement raises. *)
Definition TfIdf_fit (X : list string) : method TfIdf TfIdf :=
  fun self =>
    let N := length X in
    match (idf <- TfIdf_fit_df (TfIdf_k self) X ;; score N idf) with
    | Ok idf =>
        let self' := mkTfIdf (TfIdf_k self) (TfIdf_normalize self) (Some idf) in
        (Ok self', self')
    | Raise e => (Raise e, self)
    end.

End TfIdfFit.

(** The vector [result] of [TfIdf._text_to_tf_idf] before normalisation. *)
Definition tf_idf_raw (idf : dict R) (text : string) : result (list R) :=
  let text := split text in
  let tf := dict_comp (fun _ => 0) (keys idf) in
  tf <- foldM (fun tf word =>
                 if contains idf word then incr tf word else Ok tf) tf text ;;
  mapM (fun word =>
          t <- getitem tf word ;;
          v <- getitem idf word ;;
          Ok (INR t * v)%R) (keys idf).

(** [result /= (np.linalg.norm(result, axis=0, keepdims=True) + EPS)] *)
Definition normalized (v : list R) : list R :=
  map (fun x => x / (l2norm v + EPS))%R v.

(** [TfIdf._text_to_tf_idf] *)
Definition TfIdf_text_to_tf_idf (self : TfIdf) (text : string)
  : result (list R) :=
  match TfIdf_idf self with
  | None => Raise TypeError
  | Some idf =>
      result0 <- tf_idf_raw idf text ;;
      Ok (if TfIdf_normalize self then normalized result0 else result0)
  end.

(** [TfIdf.transform] *)
Definition TfIdf_transform (X : list string) : method TfIdf (list (list R)) :=
  fun self =>
    match TfIdf_idf self with
    | None => (Raise AssertionError, self)
    | Some _ =>
        (rows <- mapM (TfIdf_text_to_tf_idf self) X ;; np_stack rows, self)
    end.

(** ** Closed forms used in the statements and proofs *)

(** Every dictionary of the program has the shape [tabulate f ks]. *)
Definition tabulate {V} (f : string -> V) (ks : list string) : dict V :=
  map (fun w => (w, f w)) ks.

Definition bump (c : string -> nat) (w : string) : string -> nat :=
  fun w' => if string_dec w' w then c w + 1 else c w'.

(** The order of a list sorted by decreasing key. *)
Definition desc {A} (key : A -> nat) (a b : A) : Prop := key b <= key a.

(** The keys of a table of counts, most frequent first. *)
Definition ranked (c : string -> nat) (ks : list string) : list string :=
  map fst (sorted_desc snd (tabulate c ks)).

(** The row the specification describes: entry [i] is the number of
    occurrences of the [i]-th vocabulary token in the text. *)
Definition bow_row (bow : list string) (text : string) : list nat :=
  map (count_occ string_dec (split text)) bow.

(** The score the specification gives a token: ln (N / (df + 1)). *)
Definition idf_score (X : list string) (w : string) : R :=
  ln (INR (length X) / INR (df X w + 1)).

(** The keys kept by the [if self.k:] block. *)
Definition retained (k : option Z) (c : string -> nat) (ks : list string)
  : list string :=
  if truthy k
  then firstn (Z.to_nat (match k with Some z => z | None => 0%Z end))
         (ranked c ks)
  else ks.

(** The table [TfIdf.fit] stores. *)
Definition fitted_table {SI : SetIteration} (k : option Z) (X : list string)
  : dict R :=
  tabulate (idf_score X) (retained k (df X) (set_iter (tokens X))).

(** The vector the specification describes: term frequency times score, in
    the order of the table. *)
Definition tf_idf_row (idf : dict R) (text : string) : list R :=
  map (fun wv => INR (count_occ string_dec (split text) (fst wv)) * snd wv)%R
    idf.

(** The row [transform] gives a text. *)
Definition TfIdf_row (normalize : bool) (idf : dict R) (text : string)
  : list R :=
  if normalize then normalized (tf_idf_row idf text) else tf_idf_row idf text.

(** A string without whitespace characters. *)
Fixpoint no_space (s : string) : bool :=
  match s with
  | EmptyString => true
  | String c rest => negb (isspace c) && no_space rest
  end.

(** The entrywise sum of two rows. *)
Definition add_rows (r1 r2 : list nat) : list nat :=
  map (fun p => fst p + snd p) (combine r1 r2).

(** ** Tokenisation *)

Lemma emit_app (cur : string) (l1 l2 : list string) :
  (emit cur l1 ++ l2)%list = emit cur (l1 ++ l2)%list.
Proof. unfold emit. destruct (string_dec cur ""); reflexivity. Qed.

Lemma split_from_space (cur a b : string) :
  split_from cur (a ++ String " " b) = (split_from cur a ++ split b)%list.
Proof.
  revert cur. induction a as [|c a IH]; intros cur; simpl.
  - rewrite emit_app. reflexivity.
  - destruct (isspace c).
    + rewrite IH, emit_app. reflexivity.
    + apply IH.
Qed.

Lemma split_join (X : list string) : split (join " " X) = tokens X.
Proof.
  unfold join, tokens. induction X as [|x X IH]; simpl.
  - reflexivity.
  - destruct X as [|y X].
    + simpl. rewrite app_nil_r. reflexivity.
    + unfold split at 1. rewrite split_from_space.
      fold (split x). f_equal. exact IH.
Qed.

Example split_example :
  split "  a b   b a " = ["a"; "b"; "b"; "a"].
Proof. reflexivity. Qed.

(** ** Dictionaries built over a list of distinct keys *)

Lemma keys_tabulate {V} (f : string -> V) ks : keys (tabulate f ks) = ks.
Proof.
  unfold keys, tabulate. rewrite map_map. simpl. apply map_id.
Qed.

Lemma values_tabulate {V} (f : string -> V) ks :
  values (tabulate f ks) = map f ks.
Proof. unfold values, tabulate. rewrite map_map. reflexivity. Qed.

Lemma tabulate_ext {V} (f g : string -> V) ks :
  (forall w, In w ks -> f w = g w) -> tabulate f ks = tabulate g ks.
Proof.
  intros H. unfold tabulate. apply map_ext_in. intros w Hw.
  rewrite (H w Hw). reflexivity.
Qed.

Lemma length_tabulate {V} (f : string -> V) ks :
  length (tabulate f ks) = length ks.
Proof. unfold tabulate. apply length_map. Qed.

Lemma In_tabulate {V} (f : string -> V) ks w v :
  In (w, v) (tabulate f ks) <-> In w ks /\ v = f w.
Proof.
  unfold tabulate. rewrite in_map_iff. split.
  - intros [w' [E Hw]]. inversion E; subst. auto.
  - intros [Hw ->]. exists w. auto.
Qed.

Lemma getitem_tabulate {V} (f : string -> V) ks w :
  In w ks -> getitem (tabulate f ks) w = Ok (f w).
Proof.
  induction ks as [|a ks IH]; simpl; intros Hin.
  - contradiction.
  - destruct (string_dec a w) as [->|Hne].
    + reflexivity.
    + destruct Hin as [E|Hin]; [contradiction|]. apply IH, Hin.
Qed.

Lemma getitem_tabulate_missing {V} (f : string -> V) ks w :
  ~ In w ks -> getitem (tabulate f ks) w = Raise KeyError.
Proof.
  induction ks as [|a ks IH]; simpl; intros Hin.
  - reflexivity.
  - destruct (string_dec a w) as [->|Hne].
    + exfalso. apply Hin. now left.
    + apply IH. intros H. apply Hin. now right.
Qed.

Lemma setitem_absent {V} (d : dict V) w v :
  ~ In w (keys d) -> setitem d w v = (d ++ [(w, v)])%list.
Proof.
  induction d as [|[a x] d IH]; simpl; intros Hin.
  - reflexivity.
  - destruct (string_dec a w) as [->|Hne].
    + exfalso. apply Hin. now left.
    + rewrite IH; [reflexivity|]. intros H. apply Hin. now right.
Qed.

Lemma setitem_tabulate {V} (f : string -> V) ks w v :
  NoDup ks -> In w ks ->
  setitem (tabulate f ks) w v
  = tabulate (fun w' => if string_dec w' w then v else f w') ks.
Proof.
  induction ks as [|a ks IH]; simpl; intros Hnd Hin.
  - contradiction.
  - inversion Hnd as [|? ? Ha Hnd']; subst.
    destruct (string_dec a w) as [->|Hne].
    + f_equal. apply tabulate_ext. intros w' Hw'.
      destruct (string_dec w' w) as [->|]; [contradiction|reflexivity].
    + destruct Hin as [E|Hin]; [contradiction|].
      rewrite (IH Hnd' Hin). reflexivity.
Qed.

Lemma dict_comp_from {V} (g : string -> V) (l : list string) (d : dict V) :
  NoDup (keys d ++ l) ->
  fold_left (fun d w => setitem d w (g w)) l d = (d ++ tabulate g l)%list.
Proof.
  revert d. induction l as [|a l IH]; intros d Hnd; simpl.
  - rewrite app_nil_r. reflexivity.
  - rewrite setitem_absent.
    + rewrite IH.
      * rewrite <- app_assoc. reflexivity.
      * unfold keys. rewrite map_app. simpl. fold (keys d).
        rewrite <- app_assoc. exact Hnd.
    + apply NoDup_remove_2 in Hnd. intros H. apply Hnd.
      apply in_or_app. now left.
Qed.

Lemma dict_comp_tabulate {V} (g : string -> V) (l : list string) :
  NoDup l -> dict_comp g l = tabulate g l.
Proof.
  intros Hnd. unfold dict_comp. rewrite dict_comp_from; [reflexivity|].
  exact Hnd.
Qed.

Lemma dict_compM_from {V} (g : string -> result V) (f : string -> V)
  (l : list string) (d : dict V) :
  NoDup (keys d ++ l) ->
  (forall w, In w l -> g w = Ok (f w)) ->
  foldM (fun d w => v <- g w ;; Ok (setitem d w v)) d l
  = Ok (d ++ tabulate f l)%list.
Proof.
  revert d. induction l as [|a l IH]; intros d Hnd Hg; simpl.
  - rewrite app_nil_r. reflexivity.
  - rewrite (Hg a (or_introl eq_refl)). simpl.
    rewrite setitem_absent.
    + rewrite IH.
      * rewrite <- app_assoc. reflexivity.
      * unfold keys. rewrite map_app. simpl. fold (keys d).
        rewrite <- app_assoc. exact Hnd.
      * intros w Hw. apply Hg. now right.
    + apply NoDup_remove_2 in Hnd. intros H. apply Hnd.
      apply in_or_app. now left.
Qed.

Lemma dict_compM_tabulate {V} (g : string -> result V) (f : string -> V)
  (l : list string) :
  NoDup l -> (forall w, In w l -> g w = Ok (f w)) ->
  dict_compM g l = Ok (tabulate f l).
Proof.
  intros Hnd Hg. unfold dict_compM.
  rewrite (dict_compM_from g f); auto.
Qed.

(** ** Counting loops *)

Lemma incr_tabulate (c : string -> nat) ks w :
  NoDup ks -> In w ks ->
  incr (tabulate c ks) w = Ok (tabulate (bump c w) ks).
Proof.
  intros Hnd Hin. unfold incr. rewrite getitem_tabulate by exact Hin.
  simpl. rewrite setitem_tabulate by assumption. reflexivity.
Qed.

Lemma incr_missing (c : string -> nat) ks w :
  ~ In w ks -> incr (tabulate c ks) w = Raise KeyError.
Proof.
  intros Hin. unfold incr. rewrite getitem_tabulate_missing by exact Hin.
  reflexivity.
Qed.

(** A run of increments over tokens that are all keys adds, to each key, the
    number of its occurrences among the tokens. *)
Lemma foldM_incr (c : string -> nat) ks (ts : list string) :
  NoDup ks -> incl ts ks ->
  foldM incr (tabulate c ks) ts
  = Ok (tabulate (fun w => c w + count_occ string_dec ts w) ks).
Proof.
  intros Hnd. revert c. induction ts as [|t ts IH]; intros c Hincl; simpl.
  - f_equal. apply tabulate_ext. intros. lia.
  - rewrite incr_tabulate; auto.
    2:{ apply Hincl. now left. }
    simpl. rewrite IH.
    2:{ intros x Hx. apply Hincl. now right. }
    f_equal. apply tabulate_ext. intros w _. unfold bump.
    destruct (string_dec t w) as [->|Hne].
    + destruct (string_dec w w); [lia|contradiction].
    + destruct (string_dec w t); [subst; contradiction|lia].
Qed.

(** The same run when tokens that are not keys are skipped by a guard. *)
Lemma foldM_incr_guarded (guard : string -> bool) (c : string -> nat) ks ts :
  NoDup ks ->
  (forall w, guard w = true <-> In w ks) ->
  foldM (fun d w => if guard w then incr d w else Ok d) (tabulate c ks) ts
  = Ok (tabulate (fun w => c w + count_occ string_dec ts w) ks).
Proof.
  intros Hnd Hg. revert c. induction ts as [|t ts IH]; intros c; simpl.
  - f_equal. apply tabulate_ext. intros. lia.
  - destruct (guard t) eqn:Egt.
    + apply Hg in Egt. rewrite incr_tabulate; auto. simpl. rewrite IH.
      f_equal. apply tabulate_ext. intros w _. unfold bump.
      destruct (string_dec t w) as [->|Hne].
      * destruct (string_dec w w); [lia|contradiction].
      * destruct (string_dec w t); [subst; contradiction|lia].
    + simpl. rewrite IH. f_equal. apply tabulate_ext. intros w Hw.
      destruct (string_dec t w) as [->|Hne]; [|reflexivity].
      apply Hg in Hw. congruence.
Qed.

Lemma foldM_flat_map {A B C} (f : A -> C -> result A) (g : B -> list C)
  (a : A) (l : list B) :
  foldM (fun a b => foldM f a (g b)) a l = foldM f a (flat_map g l).
Proof.
  assert (Happ : forall l1 l2 a0,
             foldM f a0 (l1 ++ l2)%list = (a' <- foldM f a0 l1 ;; foldM f a' l2)).
  { induction l1 as [|c l1 IH]; intros l2 a0; simpl; [reflexivity|].
    destruct (f a0 c); simpl; [apply IH|reflexivity]. }
  revert a. induction l as [|b l IH]; intros a; simpl.
  - reflexivity.
  - rewrite Happ. destruct (foldM f a (g b)); simpl; [apply IH|reflexivity].
Qed.

Lemma list_contains_In (l : list string) (w : string) :
  list_contains l w = true <-> In w l.
Proof.
  unfold list_contains. rewrite existsb_exists. split.
  - intros [x [Hx E]]. apply String.eqb_eq in E. subst. exact Hx.
  - intros H. exists w. split; [exact H|apply String.eqb_refl].
Qed.

Lemma contains_In {V} (d : dict V) (w : string) :
  contains d w = true <-> In w (keys d).
Proof. unfold contains. apply list_contains_In. Qed.

(** ** Sorting, slicing, enumerating *)

Section Sorting.
Context {A : Type} (key : A -> nat).

Lemma insert_desc_perm (x : A) (l : list A) :
  Permutation (x :: l) (insert_desc key x l).
Proof.
  induction l as [|y ys IH]; simpl.
  - apply Permutation_refl.
  - destruct (key y <=? key x).
    + apply Permutation_refl.
    + eapply perm_trans; [apply perm_swap|]. apply perm_skip, IH.
Qed.

Lemma sorted_desc_perm (l : list A) : Permutation l (sorted_desc key l).
Proof.
  induction l as [|x l IH]; simpl.
  - apply perm_nil.
  - eapply perm_trans; [apply perm_skip, IH|]. apply insert_desc_perm.
Qed.

Lemma insert_desc_sorted (x : A) (l : list A) :
  StronglySorted (desc key) l -> StronglySorted (desc key) (insert_desc key x l).
Proof.
  induction l as [|y ys IH]; simpl; intros Hs.
  - constructor; constructor.
  - destruct (key y <=? key x) eqn:E.
    + apply Nat.leb_le in E. constructor; [exact Hs|].
      constructor; [exact E|].
      inversion Hs as [|? ? _ Hall]; subst.
      eapply Forall_impl; [|exact Hall].
      intros b Hb. unfold desc in *. lia.
    + apply Nat.leb_gt in E.
      inversion Hs as [|? ? Hs' Hall]; subst.
      constructor; [apply IH, Hs'|].
      eapply Permutation_Forall; [apply insert_desc_perm|].
      constructor; [unfold desc; lia|exact Hall].
Qed.

Lemma sorted_desc_sorted (l : list A) : StronglySorted (desc key) (sorted_desc key l).
Proof.
  induction l as [|x l IH]; simpl.
  - constructor.
  - apply insert_desc_sorted, IH.
Qed.

End Sorting.

Lemma firstn_incl {A} (n : nat) (l : list A) (x : A) :
  In x (firstn n l) -> In x l.
Proof.
  intros H. rewrite <- (firstn_skipn n l). apply in_or_app. now left.
Qed.

Lemma StronglySorted_firstn {A} (R : A -> A -> Prop) (n : nat) (l : list A) :
  StronglySorted R l -> StronglySorted R (firstn n l).
Proof.
  revert n. induction l as [|x l IH]; intros n Hs.
  - rewrite firstn_nil. constructor.
  - destruct n as [|n]; simpl; [constructor|].
    inversion Hs as [|? ? Hs' Hall]; subst.
    constructor; [apply IH, Hs'|].
    rewrite Forall_forall in *. intros y Hy. apply Hall.
    eapply firstn_incl; eauto.
Qed.

Lemma NoDup_firstn {A} (n : nat) (l : list A) : NoDup l -> NoDup (firstn n l).
Proof.
  revert n. induction l as [|x l IH]; intros n Hnd.
  - rewrite firstn_nil. constructor.
  - destruct n as [|n]; simpl; [constructor|].
    inversion Hnd as [|? ? Hx Hnd']; subst.
    constructor; [|apply IH, Hnd'].
    intros Hin. apply Hx. eapply firstn_incl; eauto.
Qed.

Lemma StronglySorted_map_fst {V} (f : string -> nat) (l : dict V)
  (g : string * V -> nat) :
  (forall p, In p l -> g p = f (fst p)) ->
  StronglySorted (desc g) l -> StronglySorted (desc f) (map fst l).
Proof.
  intros Hg Hs. induction Hs as [|p l Hs IH Hall]; simpl.
  - constructor.
  - constructor.
    + apply IH. intros q Hq. apply Hg. now right.
    + rewrite Forall_forall in *. intros w Hw.
      apply in_map_iff in Hw. destruct Hw as [q [<- Hq]].
      unfold desc in *. specialize (Hall q Hq).
      rewrite <- (Hg p (or_introl eq_refl)).
      rewrite <- (Hg q (or_intror Hq)). exact Hall.
Qed.

Lemma slice_to_nonneg {A} (k : Z) (l : list A) :
  (0 <= k)%Z -> slice_to k l = firstn (Z.to_nat k) l.
Proof.
  intros Hk. unfold slice_to.
  destruct (k <? 0)%Z eqn:E; [apply Z.ltb_lt in E; lia|reflexivity].
Qed.

Lemma enumerate_filter_from {A} (k : Z) (l : list A) (s : nat) :
  map snd (filter (fun iw : nat * A => (Z.of_nat (fst iw) <? k)%Z)
             (combine (seq s (length l)) l))
  = firstn (Z.to_nat k - s) l.
Proof.
  revert s. induction l as [|x l IH]; intros s; simpl.
  - rewrite firstn_nil. reflexivity.
  - destruct (Z.of_nat s <? k)%Z eqn:E.
    + apply Z.ltb_lt in E. simpl. rewrite IH.
      replace (Z.to_nat k - s) with (S (Z.to_nat k - S s)) by lia.
      reflexivity.
    + apply Z.ltb_ge in E. rewrite IH.
      replace (Z.to_nat k - s) with 0 by lia.
      replace (Z.to_nat k - S s) with 0 by lia.
      rewrite firstn_0. reflexivity.
Qed.

Lemma enumerate_filter {A} (k : Z) (l : list A) :
  map snd (filter (fun iw : nat * A => (Z.of_nat (fst iw) <? k)%Z) (enumerate l))
  = firstn (Z.to_nat k) l.
Proof.
  unfold enumerate. rewrite enumerate_filter_from. f_equal. lia.
Qed.

(** ** The keys in sorted order *)

Lemma decorate_tabulate (c : string -> nat) (ks' ks : list string) :
  incl ks ks' ->
  mapM (fun x => v <- getitem (tabulate c ks') x ;; Ok (x, v)) ks
  = Ok (tabulate c ks).
Proof.
  induction ks as [|a ks IH]; intros Hincl; simpl.
  - reflexivity.
  - rewrite getitem_tabulate by (apply Hincl; now left). simpl.
    rewrite IH by (intros x Hx; apply Hincl; now right). reflexivity.
Qed.

Lemma sorted_keys_tabulate (c : string -> nat) (ks : list string) :
  sorted_keys (tabulate c ks) = Ok (ranked c ks).
Proof.
  unfold sorted_keys. rewrite keys_tabulate.
  rewrite decorate_tabulate by apply incl_refl. reflexivity.
Qed.

Lemma ranked_perm (c : string -> nat) ks : Permutation ks (ranked c ks).
Proof.
  unfold ranked.
  rewrite <- (keys_tabulate c ks) at 1. unfold keys.
  apply Permutation_map, sorted_desc_perm.
Qed.

Lemma ranked_sorted (c : string -> nat) ks :
  StronglySorted (desc c) (ranked c ks).
Proof.
  unfold ranked. apply (StronglySorted_map_fst c _ snd).
  - intros [w v] Hp.
    apply (Permutation_in _ (Permutation_sym (sorted_desc_perm snd _))) in Hp.
    apply In_tabulate in Hp. simpl. tauto.
  - apply sorted_desc_sorted.
Qed.

Lemma ranked_NoDup (c : string -> nat) ks : NoDup ks -> NoDup (ranked c ks).
Proof. intros H. eapply Permutation_NoDup; [apply ranked_perm|exact H]. Qed.

Lemma ranked_length (c : string -> nat) ks : length (ranked c ks) = length ks.
Proof. symmetry. apply Permutation_length, ranked_perm. Qed.

(** ** Generic facts on comprehensions and stacking *)

Lemma mapM_ok {A B} (f : A -> result B) (g : A -> B) (l : list A) :
  (forall x, In x l -> f x = Ok (g x)) -> mapM f l = Ok (map g l).
Proof.
  induction l as [|a l IH]; intros H; simpl.
  - reflexivity.
  - rewrite (H a (or_introl eq_refl)). simpl.
    rewrite IH by (intros x Hx; apply H; now right). reflexivity.
Qed.

Lemma np_stack_uniform {A} (n : nat) (r : list A) (rs : list (list A)) :
  (forall r', In r' (r :: rs) -> length r' = n) ->
  np_stack (r :: rs) = Ok (r :: rs).
Proof.
  intros H. simpl.
  replace (forallb (fun r' => length r' =? length r) rs) with true;
    [reflexivity|].
  symmetry. apply forallb_forall. intros r' Hr'. apply Nat.eqb_eq.
  rewrite (H r' (or_intror Hr')), (H r (or_introl eq_refl)). reflexivity.
Qed.

Lemma set_iter_length {SI : SetIteration} (l : list string) :
  length (set_iter l) = length (nodup string_dec l).
Proof.
  apply Permutation_length, NoDup_Permutation.
  - apply set_iter_NoDup.
  - apply NoDup_nodup.
  - intros x. rewrite set_iter_In, nodup_In. reflexivity.
Qed.

Lemma sum_indicator (t : string) (l : list string) :
  list_sum (map (fun w => if string_dec t w then 1 else 0) l)
  = count_occ string_dec l t.
Proof.
  induction l as [|a l IH]; simpl; [reflexivity|].
  rewrite IH. destruct (string_dec t a) as [->|Hne].
  - destruct (string_dec a a); [reflexivity|contradiction].
  - destruct (string_dec a t); [subst; contradiction|reflexivity].
Qed.

Lemma list_sum_map_add {A} (f g : A -> nat) (l : list A) :
  list_sum (map (fun x => f x + g x) l)
  = list_sum (map f l) + list_sum (map g l).
Proof. induction l as [|a l IH]; simpl; [reflexivity|]. rewrite IH. lia. Qed.

(** Over distinct keys, the counts of a text add up to the number of its
    tokens that are keys. *)
Lemma sum_counts (ks ts : list string) :
  NoDup ks ->
  list_sum (map (count_occ string_dec ts) ks)
  = length (filter (list_contains ks) ts).
Proof.
  intros Hnd. induction ts as [|t ts IH]; simpl.
  - clear Hnd. induction ks as [|a ks IHk]; simpl; [reflexivity|exact IHk].
  - rewrite (map_ext (count_occ string_dec (t :: ts))
               (fun w => (if string_dec t w then 1 else 0)
                         + count_occ string_dec ts w)).
    2:{ intros w. simpl. destruct (string_dec t w); reflexivity. }
    rewrite list_sum_map_add, sum_indicator, IH.
    destruct (list_contains ks t) eqn:E.
    + apply list_contains_In in E.
      rewrite (proj1 (NoDup_count_occ' string_dec ks) Hnd t E). reflexivity.
    + assert (Hn : ~ In t ks).
      { intros H. apply list_contains_In in H. congruence. }
      rewrite (proj1 (count_occ_not_In string_dec ks t) Hn). reflexivity.
Qed.

(** ** BoW: what [fit] stores and what [transform] returns *)

Section BoWFacts.
Context {SI : SetIteration}.

Lemma count_occurrences_eq (X : list string) :
  count_occurrences (tabulate (fun _ => 0) (set_iter (tokens X))) X
  = Ok (tabulate (occurrences X) (set_iter (tokens X))).
Proof.
  unfold count_occurrences. rewrite foldM_flat_map. rewrite foldM_incr.
  - reflexivity.
  - apply set_iter_NoDup.
  - intros w Hw. apply set_iter_In. exact Hw.
Qed.

(** [BoW.fit] raises nothing, and stores the distinct tokens, most frequent
    first, cut at [k]. *)
Lemma BoW_fit_bow_eq (k : Z) (X : list string) :
  BoW_fit_bow k X
  = Ok (slice_to k (ranked (occurrences X) (set_iter (tokens X)))).
Proof.
  unfold BoW_fit_bow. rewrite split_join.
  rewrite dict_comp_tabulate by apply set_iter_NoDup.
  rewrite count_occurrences_eq. simpl.
  rewrite sorted_keys_tabulate. reflexivity.
Qed.

Lemma slice_to_NoDup {A} (k : Z) (l : list A) : NoDup l -> NoDup (slice_to k l).
Proof. intros H. unfold slice_to. destruct (k <? 0)%Z; apply NoDup_firstn, H. Qed.

Lemma BoW_fit_bow_NoDup (k : Z) (X : list string) :
  NoDup (slice_to k (ranked (occurrences X) (set_iter (tokens X)))).
Proof. apply slice_to_NoDup, ranked_NoDup, set_iter_NoDup. Qed.

End BoWFacts.

Lemma BoW_text_to_bow_eq (k : Z) (bow : list string) (text : string) :
  NoDup bow ->
  BoW_text_to_bow (mkBoW k (Some bow)) text = Ok (bow_row bow text).
Proof.
  intros Hnd. unfold BoW_text_to_bow. simpl.
  rewrite dict_comp_tabulate by exact Hnd.
  rewrite (foldM_incr_guarded (list_contains bow)); auto.
  2:{ intros w. apply list_contains_In. }
  simpl. rewrite values_tabulate. reflexivity.
Qed.

Lemma BoW_transform_eq (k : Z) (bow : list string) (text : string)
  (X : list string) :
  NoDup bow ->
  BoW_transform (text :: X) (mkBoW k (Some bow))
  = (Ok (map (bow_row bow) (text :: X)), mkBoW k (Some bow)).
Proof.
  intros Hnd. unfold BoW_transform. cbn [BoW_bow].
  rewrite (mapM_ok _ (bow_row bow)).
  2:{ intros x _. apply BoW_text_to_bow_eq, Hnd. }
  cbn [rbind map]. rewrite (np_stack_uniform (length bow)); [reflexivity|].
  intros r' Hr'. change (In r' (map (bow_row bow) (text :: X))) in Hr'.
  apply in_map_iff in Hr'. destruct Hr' as [x [<- _]].
  unfold bow_row. apply length_map.
Qed.

(** ** TfIdf: what [fit] stores *)

Section TfIdfFacts.
Context {SI : SetIteration}.

Lemma count_occ_sets (X : list string) (w : string) :
  count_occ string_dec (flat_map (fun d => set_iter (split d)) X) w = df X w.
Proof.
  unfold df. induction X as [|d X IH]; simpl; [reflexivity|].
  rewrite count_occ_app, IH. unfold occurs_in at 2.
  destruct (in_dec string_dec w (split d)) as [Hin|Hout]; simpl.
  - rewrite (proj1 (NoDup_count_occ' string_dec _) (set_iter_NoDup (split d)) w).
    + reflexivity.
    + apply set_iter_In, Hin.
  - rewrite (proj1 (count_occ_not_In string_dec _ w)); [reflexivity|].
    intros H. apply Hout. apply (proj1 (set_iter_In _ _)), H.
Qed.

(** The loop of [fit] leaves, for each distinct token, its document
    frequency. *)
Lemma count_documents_eq (X : list string) :
  count_documents (tabulate (fun _ => 0) (set_iter (tokens X))) X
  = Ok (tabulate (df X) (set_iter (tokens X))).
Proof.
  unfold count_documents.
  rewrite (foldM_flat_map incr (fun d => set_iter (split d))).
  rewrite foldM_incr.
  - f_equal. apply tabulate_ext. intros w _. simpl. apply count_occ_sets.
  - apply set_iter_NoDup.
  - intros w Hw. apply set_iter_In. apply in_flat_map in Hw.
    destruct Hw as [d [Hd Hw]]. apply (proj1 (set_iter_In _ _)) in Hw.
    unfold tokens. apply in_flat_map. exists d. auto.
Qed.

Lemma retained_NoDup k c ks : NoDup ks -> NoDup (retained k c ks).
Proof.
  intros H. unfold retained. destruct (truthy k); [|exact H].
  apply NoDup_firstn, ranked_NoDup, H.
Qed.

Lemma retained_incl k c ks w : In w (retained k c ks) -> In w ks.
Proof.
  unfold retained. destruct (truthy k); [|auto].
  intros H. apply firstn_incl in H.
  eapply Permutation_in; [apply Permutation_sym, ranked_perm|exact H].
Qed.

Lemma restrict_tabulate (k : option Z) (c : string -> nat) ks :
  NoDup ks ->
  restrict k (tabulate c ks) = Ok (tabulate c (retained k c ks)).
Proof.
  intros Hnd. unfold restrict, retained. destruct (truthy k) eqn:Ek.
  - rewrite sorted_keys_tabulate. simpl. rewrite enumerate_filter.
    apply dict_compM_tabulate.
    + apply NoDup_firstn, ranked_NoDup, Hnd.
    + intros w Hw. apply getitem_tabulate. apply firstn_incl in Hw.
      eapply Permutation_in; [apply Permutation_sym, ranked_perm|exact Hw].
  - reflexivity.
Qed.

Lemma TfIdf_fit_df_eq (k : option Z) (X : list string) :
  TfIdf_fit_df k X
  = Ok (tabulate (df X) (retained k (df X) (set_iter (tokens X)))).
Proof.
  unfold TfIdf_fit_df. rewrite split_join.
  rewrite dict_comp_tabulate by apply set_iter_NoDup.
  rewrite count_documents_eq. simpl.
  apply restrict_tabulate, set_iter_NoDup.
Qed.

Lemma score_tabulate (N : nat) (c : string -> nat) ks :
  NoDup ks ->
  score N (tabulate c ks)
  = Ok (tabulate (fun w => np_log (INR N / INR (c w + 1))) ks).
Proof.
  intros Hnd. unfold score. rewrite keys_tabulate.
  apply dict_compM_tabulate; [exact Hnd|].
  intros w Hw. rewrite getitem_tabulate by exact Hw. reflexivity.
Qed.

(** [TfIdf.fit] raises nothing and stores [fitted_table]. *)
Lemma TfIdf_fit_eq (X : list string) (self : TfIdf) :
  TfIdf_fit X self
  = (Ok (mkTfIdf (TfIdf_k self) (TfIdf_normalize self)
           (Some (fitted_table (TfIdf_k self) X))),
     mkTfIdf (TfIdf_k self) (TfIdf_normalize self)
       (Some (fitted_table (TfIdf_k self) X))).
Proof.
  unfold TfIdf_fit. rewrite TfIdf_fit_df_eq. cbn [rbind].
  rewrite score_tabulate.
  - reflexivity.
  - apply retained_NoDup, set_iter_NoDup.
Qed.

Lemma fitted_table_In (k : option Z) (X : list string) w v :
  In (w, v) (fitted_table k X) ->
  In w (tokens X) /\ v = idf_score X w.
Proof.
  unfold fitted_table. intros H. apply In_tabulate in H.
  destruct H as [Hw ->]. split; [|reflexivity].
  apply retained_incl in Hw. apply (proj1 (set_iter_In _ _)), Hw.
Qed.

End TfIdfFacts.

(** ** Document frequencies and scores *)

Lemma df_le_length (X : list string) (w : string) : df X w <= length X.
Proof. unfold df. apply filter_length_le. Qed.

Lemma df_pos (X : list string) (w : string) : In w (tokens X) -> 1 <= df X w.
Proof.
  unfold tokens, df. intros H. apply in_flat_map in H.
  destruct H as [d [Hd Hw]].
  assert (Hin : In d (filter (occurs_in w) X)).
  { apply filter_In. split; [exact Hd|]. unfold occurs_in.
    destruct (in_dec string_dec w (split d)); [reflexivity|contradiction]. }
  destruct (filter (occurs_in w) X); [contradiction|simpl; lia].
Qed.

Lemma ratio_pos (N d : nat) : 1 <= N -> (0 < INR N / INR (d + 1))%R.
Proof.
  intros HN. apply Rdiv_lt_0_compat.
  - apply lt_0_INR. lia.
  - apply lt_0_INR. lia.
Qed.

Lemma ln_ratio_nonneg (N d : nat) :
  d + 1 <= N -> (0 <= ln (INR N / INR (d + 1)))%R.
Proof.
  intros H. assert (Hd : (0 < INR (d + 1))%R) by (apply lt_0_INR; lia).
  assert (Hle : (INR (d + 1) <= INR N)%R) by (apply le_INR; exact H).
  assert (H1 : (1 <= INR N / INR (d + 1))%R).
  { apply (Rmult_le_reg_r (INR (d + 1))); [exact Hd|].
    unfold Rdiv. rewrite Rmult_assoc, Rinv_l by lra. lra. }
  destruct H1 as [Hlt|Heq].
  - left. rewrite <- ln_1. apply ln_increasing; lra.
  - rewrite <- Heq, ln_1. lra.
Qed.

Lemma ln_ratio_neg (N d : nat) :
  1 <= N -> N <= d -> (ln (INR N / INR (d + 1)) < 0)%R.
Proof.
  intros HN H. assert (Hd : (0 < INR (d + 1))%R) by (apply lt_0_INR; lia).
  assert (Hlt : (INR N < INR (d + 1))%R) by (apply lt_INR; lia).
  rewrite <- ln_1. apply ln_increasing.
  - apply ratio_pos, HN.
  - apply (Rmult_lt_reg_r (INR (d + 1))); [exact Hd|].
    unfold Rdiv. rewrite Rmult_assoc, Rinv_l by lra. lra.
Qed.

(** ** TfIdf: what [transform] returns *)

Lemma tf_idf_raw_eq (s : string -> R) (K : list string) (text : string) :
  NoDup K ->
  tf_idf_raw (tabulate s K) text = Ok (tf_idf_row (tabulate s K) text).
Proof.
  intros Hnd. unfold tf_idf_raw. rewrite keys_tabulate.
  rewrite dict_comp_tabulate by exact Hnd.
  rewrite (foldM_incr_guarded (contains (tabulate s K))); auto.
  2:{ intros w. rewrite contains_In, keys_tabulate. reflexivity. }
  cbn [rbind].
  rewrite (mapM_ok _ (fun w =>
             (INR (count_occ string_dec (split text) w) * s w)%R)).
  - unfold tf_idf_row, tabulate. rewrite map_map. reflexivity.
  - intros w Hw. rewrite !getitem_tabulate by exact Hw. reflexivity.
Qed.

Lemma length_tf_idf_row (idf : dict R) (text : string) :
  length (tf_idf_row idf text) = length idf.
Proof. unfold tf_idf_row. apply length_map. Qed.

Lemma length_normalized (v : list R) : length (normalized v) = length v.
Proof. unfold normalized. apply length_map. Qed.

Lemma TfIdf_text_to_tf_idf_eq (k : option Z) (nz : bool) (s : string -> R)
  (K : list string) (text : string) :
  NoDup K ->
  TfIdf_text_to_tf_idf (mkTfIdf k nz (Some (tabulate s K))) text
  = Ok (TfIdf_row nz (tabulate s K) text).
Proof.
  intros Hnd. unfold TfIdf_text_to_tf_idf. cbn [TfIdf_idf TfIdf_normalize].
  rewrite tf_idf_raw_eq by exact Hnd. reflexivity.
Qed.

Lemma TfIdf_transform_eq (k : option Z) (nz : bool) (s : string -> R)
  (K : list string) (text : string) (X : list string) :
  NoDup K ->
  TfIdf_transform (text :: X) (mkTfIdf k nz (Some (tabulate s K)))
  = (Ok (map (TfIdf_row nz (tabulate s K)) (text :: X)),
     mkTfIdf k nz (Some (tabulate s K))).
Proof.
  intros Hnd. unfold TfIdf_transform. cbn [TfIdf_idf].
  rewrite (mapM_ok _ (TfIdf_row nz (tabulate s K))).
  2:{ intros x _. apply TfIdf_text_to_tf_idf_eq, Hnd. }
  cbn [rbind map]. rewrite (np_stack_uniform (length K)); [reflexivity|].
  intros r' Hr'.
  change (In r' (map (TfIdf_row nz (tabulate s K)) (text :: X))) in Hr'.
  apply in_map_iff in Hr'. destruct Hr' as [x [<- _]].
  unfold TfIdf_row. destruct nz.
  - rewrite length_normalized, length_tf_idf_row. apply length_tabulate.
  - rewrite length_tf_idf_row. apply length_tabulate.
Qed.

(** ** Norms *)

Lemma sum_squares_nonneg (v : list R) : (0 <= sum_squares v)%R.
Proof.
  induction v as [|x v IH]; simpl.
  - lra.
  - pose proof (Rle_0_sqr x) as Hx. unfold Rsqr in Hx. lra.
Qed.

Lemma l2norm_nonneg (v : list R) : (0 <= l2norm v)%R.
Proof. unfold l2norm. apply sqrt_pos. Qed.

Lemma EPS_pos : (0 < EPS)%R.
Proof. unfold EPS. lra. Qed.

Lemma sum_squares_scaled (c : R) (v : list R) :
  (c <> 0)%R ->
  sum_squares (map (fun x => x / c)%R v) = (sum_squares v / (c * c))%R.
Proof.
  intros Hc. induction v as [|x v IH]; simpl.
  - field. exact Hc.
  - rewrite IH. field. exact Hc.
Qed.

(** The norm of a normalised vector: n / (n + EPS), n the norm before. *)
Lemma l2norm_normalized (v : list R) :
  l2norm (normalized v) = (l2norm v / (l2norm v + EPS))%R.
Proof.
  pose proof (l2norm_nonneg v) as Hn. pose proof EPS_pos as He.
  assert (Hc : (0 < l2norm v + EPS)%R) by lra.
  unfold normalized. unfold l2norm at 1.
  rewrite sum_squares_scaled by lra.
  apply sqrt_lem_1.
  - apply Rmult_le_pos; [apply sum_squares_nonneg|].
    left. apply Rinv_0_lt_compat. apply Rmult_lt_0_compat; exact Hc.
  - apply Rmult_le_pos; [exact Hn|]. left. apply Rinv_0_lt_compat, Hc.
  - unfold l2norm at 1 3.
    replace (sqrt (sum_squares v) / (l2norm v + EPS)
             * (sqrt (sum_squares v) / (l2norm v + EPS)))%R
      with ((sqrt (sum_squares v) * sqrt (sum_squares v))
            / ((l2norm v + EPS) * (l2norm v + EPS)))%R by (field; lra).
    rewrite sqrt_sqrt by apply sum_squares_nonneg. reflexivity.
Qed.

Lemma sum_squares_zeros (n : nat) : sum_squares (repeat 0%R n) = 0%R.
Proof. induction n as [|n IH]; simpl; [reflexivity|]. rewrite IH. lra. Qed.

Lemma l2norm_zeros (n : nat) : l2norm (repeat 0%R n) = 0%R.
Proof. unfold l2norm. rewrite sum_squares_zeros. apply sqrt_0. Qed.

Lemma normalized_zeros (n : nat) : normalized (repeat 0%R n) = repeat 0%R n.
Proof.
  unfold normalized. rewrite l2norm_zeros.
  induction n as [|n IH]; simpl; [reflexivity|].
  rewrite IH. f_equal. unfold EPS. field.
Qed.

(** A text none of whose tokens is a key has the zero vector. *)
Lemma tf_idf_row_unknown (idf : dict R) (text : string) :
  (forall w, In w (split text) -> ~ In w (keys idf)) ->
  tf_idf_row idf text = repeat 0%R (length idf).
Proof.
  intros H. unfold tf_idf_row.
  assert (Hk : forall wv, In wv idf ->
            count_occ string_dec (split text) (fst wv) = 0).
  { intros wv Hwv. apply count_occ_not_In. intros Hin.
    apply (H _ Hin). unfold keys. apply in_map, Hwv. }
  clear H. induction idf as [|wv idf IH]; simpl; [reflexivity|].
  rewrite (Hk wv (or_introl eq_refl)). simpl. rewrite Rmult_0_l.
  f_equal. apply IH. intros q Hq. apply Hk. now right.
Qed.

(** ** The claims *)

(** Document frequency counts documents, not occurrences. *)
Example df_counts_documents :
  df ["a a a"; "b"] "a" = 1 /\ occurrences ["a a a"; "b"] "a" = 3.
Proof. split; reflexivity. Qed.

(** C1. For every training corpus of N documents, [TfIdf.fit] raises nothing.
    Its counting loop leaves, for each distinct whitespace token, the number
    of documents that contain the token.  The [if self.k:] block retains some
    of these tokens: all of them when k is unset (or 0), min(k, distinct) of
    them when k is positive.  The stored table has exactly the retained
    tokens as its keys, in their order, and gives each of them the score
    ln (N / (df + 1)), the logarithm of a positive number.  A token of the
    table that occurs in all N documents has the score ln (N / (N + 1)),
    which is strictly negative; with k unset every such token of the corpus
    is in the table. *)
Theorem TfIdf_fit_scores {SI : SetIteration} (self : TfIdf) (X : list string) :
  exists (counts kept : dict nat) (table : dict R),
    count_documents (dict_comp (fun _ => 0) (set_iter (split (join " " X)))) X
    = Ok counts
    /\ NoDup (keys counts)
    /\ (forall w, In w (keys counts) <-> In w (tokens X))
    /\ (forall w n, In (w, n) counts -> n = df X w)
    /\ restrict (TfIdf_k self) counts = Ok kept
    /\ (truthy (TfIdf_k self) = false -> kept = counts)
    /\ (forall z, TfIdf_k self = Some z -> (0 < z)%Z ->
          Z.of_nat (length kept) = Z.min z (Z.of_nat (distinct_token_count X)))
    /\ TfIdf_fit X self
       = (Ok (mkTfIdf (TfIdf_k self) (TfIdf_normalize self) (Some table)),
          mkTfIdf (TfIdf_k self) (TfIdf_normalize self) (Some table))
    /\ table
       = map (fun w => (w, ln (INR (length X) / INR (df X w + 1)))) (keys kept)
    /\ keys table = keys kept
    /\ NoDup (keys table)
    /\ (forall w, In w (keys kept) ->
          In (w, ln (INR (length X) / INR (df X w + 1))) table)
    /\ (forall w v, In (w, v) table ->
          In w (tokens X)
          /\ (0 < INR (length X) / INR (df X w + 1))%R
          /\ v = ln (INR (length X) / INR (df X w + 1)))
    /\ (forall w v, In (w, v) table -> df X w = length X ->
          v = ln (INR (length X) / INR (length X + 1)) /\ (v < 0)%R)
    /\ (truthy (TfIdf_k self) = false ->
        forall w, In w (tokens X) -> df X w = length X ->
          In (w, ln (INR (length X) / INR (length X + 1))) table).
Proof.
  set (ks := set_iter (tokens X)).
  set (K := retained (TfIdf_k self) (df X) ks).
  exists (tabulate (df X) ks), (tabulate (df X) K),
    (fitted_table (TfIdf_k self) X).
  assert (Hnd : NoDup ks) by apply set_iter_NoDup.
  assert (HndK : NoDup K) by (apply retained_NoDup, Hnd).
  assert (Hlen : forall w, In w (tokens X) -> 1 <= length X).
  { intros w Hw. pose proof (df_pos X w Hw). pose proof (df_le_length X w). lia. }
  assert (Htab : fitted_table (TfIdf_k self) X = tabulate (idf_score X) K)
    by reflexivity.
  split.
  { rewrite split_join, dict_comp_tabulate by exact Hnd.
    apply count_documents_eq. }
  split. { rewrite keys_tabulate. exact Hnd. }
  split. { intros w. rewrite keys_tabulate. apply set_iter_In. }
  split. { intros w n H. apply In_tabulate in H. tauto. }
  split. { apply restrict_tabulate, Hnd. }
  split. { intros Hk. unfold K, retained. rewrite Hk. reflexivity. }
  split.
  { intros z Hk Hz. rewrite length_tabulate. unfold K, retained.
    rewrite Hk. unfold truthy.
    destruct (z =? 0)%Z eqn:E; [apply Z.eqb_eq in E; lia|]. simpl.
    unfold ks. rewrite length_firstn, ranked_length, set_iter_length.
    unfold distinct_token_count. lia. }
  split. { apply TfIdf_fit_eq. }
  split. { rewrite Htab, keys_tabulate. reflexivity. }
  split. { rewrite Htab, !keys_tabulate. reflexivity. }
  split. { rewrite Htab, keys_tabulate. exact HndK. }
  split.
  { intros w Hw. rewrite keys_tabulate in Hw. rewrite Htab.
    apply In_tabulate. split; [exact Hw|reflexivity]. }
  split.
  { intros w v H. apply fitted_table_In in H. destruct H as [Hw ->].
    split; [exact Hw|]. split; [|reflexivity].
    apply ratio_pos. eapply Hlen, Hw. }
  split.
  { intros w v H Hdf. apply fitted_table_In in H. destruct H as [Hw ->].
    unfold idf_score. rewrite Hdf. split; [reflexivity|].
    apply ln_ratio_neg; [eapply Hlen, Hw|lia]. }
  intros Hk w Hw Hdf. rewrite Htab. apply In_tabulate. split.
  - unfold K, retained. rewrite Hk. apply set_iter_In, Hw.
  - unfold idf_score. rewrite Hdf. reflexivity.
Qed.

(** In the corpus ["a b"; "a"] with k unset, the token "a", found in both
    documents, is in the table with the negative score ln (2/3), and "b",
    found in one, with the score ln (2/2). *)
Lemma TfIdf_fit_scores_witness :
  exists table : dict R,
    TfIdf_fit ["a b"; "a"] (TfIdf_init None false)
    = (Ok (mkTfIdf None false (Some table)), mkTfIdf None false (Some table))
    /\ length table = 2
    /\ In ("a", ln (INR 2 / INR (2 + 1))) table
    /\ In ("b", ln (INR 2 / INR (1 + 1))) table
    /\ (ln (INR 2 / INR (2 + 1)) < 0)%R.
Proof.
  destruct (TfIdf_fit_scores (TfIdf_init None false) ["a b"; "a"])
    as [counts [kept [table
         [_ [_ [Hkeys [_ [_ [Hall [_ [Hfit
           [Htable [_ [_ [Hscore [_ [Hneg _]]]]]]]]]]]]]]]]].
  specialize (Hall eq_refl). subst kept.
  assert (Ha : In "a" (keys counts)) by (apply Hkeys; simpl; auto).
  assert (Hb : In "b" (keys counts)) by (apply Hkeys; simpl; auto).
  exists table. split; [exact Hfit|]. split.
  - rewrite Htable, length_map.
    rewrite (TfIdf_fit_eq ["a b"; "a"] (TfIdf_init None false)) in Hfit.
    injection Hfit as Ht. rewrite Htable in Ht.
    apply (f_equal (@length _)) in Ht. rewrite length_map in Ht.
    rewrite <- Ht. reflexivity.
  - split; [exact (Hscore "a" Ha)|]. split; [exact (Hscore "b" Hb)|].
    apply (Hneg "a" _ (Hscore "a" Ha) eq_refl).
Defined.

(** C3. For every corpus and every count k (k >= 0), [BoW.fit] raises nothing
    and stores a vocabulary whose length is min(k, number of distinct
    whitespace tokens of the corpus), which has no duplicate token, and which
    is ordered by non-increasing number of occurrences in the corpus. *)
Theorem BoW_fit_vocabulary {SI : SetIteration} (self : BoW) (X : list string) :
  (0 <= BoW_k self)%Z ->
  exists bow : list string,
    BoW_fit X self
    = (Ok (mkBoW (BoW_k self) (Some bow)), mkBoW (BoW_k self) (Some bow))
    /\ Z.of_nat (length bow)
       = Z.min (BoW_k self) (Z.of_nat (distinct_token_count X))
    /\ NoDup bow
    /\ StronglySorted (fun a b => occurrences X b <= occurrences X a) bow.
Proof.
  intros Hk.
  exists (slice_to (BoW_k self) (ranked (occurrences X) (set_iter (tokens X)))).
  split; [|split; [|split]].
  - unfold BoW_fit. rewrite BoW_fit_bow_eq. reflexivity.
  - rewrite slice_to_nonneg by exact Hk.
    rewrite length_firstn, ranked_length, set_iter_length.
    unfold distinct_token_count. lia.
  - apply BoW_fit_bow_NoDup.
  - rewrite slice_to_nonneg by exact Hk.
    apply StronglySorted_firstn. apply (ranked_sorted (occurrences X)).
Qed.

Lemma BoW_fit_vocabulary_witness :
  (0 <= BoW_k (BoW_init 2))%Z /\
  exists bow : list string,
    BoW_fit ["a b b"; "b c"] (BoW_init 2)
    = (Ok (mkBoW 2 (Some bow)), mkBoW 2 (Some bow))
    /\ Z.of_nat (length bow)
       = Z.min 2 (Z.of_nat (distinct_token_count ["a b b"; "b c"]))
    /\ NoDup bow
    /\ StronglySorted
         (fun a b => occurrences ["a b b"; "b c"] b
                     <= occurrences ["a b b"; "b c"] a) bow.
Proof.
  split.
  - simpl. lia.
  - apply (BoW_fit_vocabulary (BoW_init 2) ["a b b"; "b c"]). simpl. lia.
Defined.

(** The scenario of the specification: the most frequent token comes first. *)
Example BoW_fit_scenario :
  BoW_fit ["a b b"; "b c"] (BoW_init 2)
  = (Ok (mkBoW 2 (Some ["b"; "a"])), mkBoW 2 (Some ["b"; "a"])).
Proof. reflexivity. Qed.

(** C4. For every fit BoW transformer and every input text, [_text_to_bow]
    raises nothing, entry i of its vector is the number of occurrences of the
    i-th vocabulary token in the text, the entries add up to the number of
    tokens of the text that are in the vocabulary, and [transform] returns
    these vectors, one for each text of a batch. *)
Theorem BoW_transform_counts {SI : SetIteration} (self : BoW)
  (corpus : list string) (text : string) (X : list string) :
  exists (bow : list string) (row : list nat),
    BoW_fit corpus self
    = (Ok (mkBoW (BoW_k self) (Some bow)), mkBoW (BoW_k self) (Some bow))
    /\ BoW_text_to_bow (mkBoW (BoW_k self) (Some bow)) text = Ok row
    /\ length row = length bow
    /\ (forall i w, nth_error bow i = Some w ->
          nth_error row i = Some (count_occ string_dec (split text) w))
    /\ list_sum row = length (filter (list_contains bow) (split text))
    /\ BoW_transform (text :: X) (mkBoW (BoW_k self) (Some bow))
       = (Ok (map (bow_row bow) (text :: X)), mkBoW (BoW_k self) (Some bow))
    /\ bow_row bow text = row.
Proof.
  pose proof (BoW_fit_bow_NoDup (BoW_k self) corpus) as Hnd.
  exists (slice_to (BoW_k self)
            (ranked (occurrences corpus) (set_iter (tokens corpus)))).
  eexists. split; [|split; [|split; [|split; [|split; [|split]]]]].
  - unfold BoW_fit. rewrite BoW_fit_bow_eq. reflexivity.
  - apply BoW_text_to_bow_eq, Hnd.
  - unfold bow_row. apply length_map.
  - intros i w Hi. unfold bow_row. apply map_nth_error, Hi.
  - unfold bow_row. apply sum_counts, Hnd.
  - apply BoW_transform_eq, Hnd.
  - reflexivity.
Qed.

(** The scenario of the specification. *)
Example BoW_transform_scenario :
  BoW_transform ["a b"] (mkBoW 2 (Some ["b"; "a"]))
  = (Ok [[1; 1]], mkBoW 2 (Some ["b"; "a"])).
Proof. reflexivity. Qed.

(** A token outside the vocabulary is not counted. *)
Example BoW_transform_unknown :
  BoW_transform ["a zz b a"] (mkBoW 2 (Some ["b"; "a"]))
  = (Ok [[1; 2]], mkBoW 2 (Some ["b"; "a"])).
Proof. reflexivity. Qed.

(** C2. [BoW.transform] before any [fit] raises the assertion error for
    every input.  [TfIdf.transform] before any [fit] does not: the table is
    an empty dictionary, the assertion passes, and the call returns one
    zero-width row per text (or, for an empty batch, stops at [np.stack]). *)
Theorem transform_before_fit :
  (forall k X, BoW_transform X (BoW_init k) = (Raise AssertionError, BoW_init k))
  /\ (forall k nz text X,
        TfIdf_transform (text :: X) (TfIdf_init k nz)
        = (Ok (map (fun _ => []) (text :: X)), TfIdf_init k nz))
  /\ (forall k nz,
        TfIdf_transform [] (TfIdf_init k nz) = (Raise ValueError, TfIdf_init k nz)).
Proof.
  split; [|split].
  - intros k X. reflexivity.
  - intros k nz text X. unfold TfIdf_init.
    change (@nil (string * R)) with (tabulate (fun _ => 0%R) []).
    rewrite TfIdf_transform_eq by constructor.
    f_equal. f_equal. apply map_ext. intros t.
    unfold TfIdf_row. destruct nz; reflexivity.
  - intros k nz. reflexivity.
Qed.

Lemma set_iter_nil {SI : SetIteration} : set_iter [] = [].
Proof.
  destruct (set_iter []) as [|x l] eqn:E; [reflexivity|].
  exfalso. apply (proj1 (set_iter_In [] x)). rewrite E. now left.
Qed.

Lemma set_iter_single {SI : SetIteration} (a : string) : set_iter [a] = [a].
Proof.
  pose proof (set_iter_length [a]) as Hlen. simpl in Hlen.
  destruct (set_iter [a]) as [|x [|y l]] eqn:E; simpl in Hlen; try discriminate.
  assert (Hx : In x (set_iter [a])) by (rewrite E; now left).
  apply (proj1 (set_iter_In _ _)) in Hx. destruct Hx as [->|[]]. reflexivity.
Qed.

Lemma fitted_table_unset {SI : SetIteration} (X : list string) :
  keys (fitted_table None X) = set_iter (tokens X)
  /\ length (fitted_table None X) = distinct_token_count X.
Proof.
  unfold fitted_table, retained. simpl. split.
  - apply keys_tabulate.
  - rewrite length_tabulate. apply set_iter_length.
Qed.

(** With a positive [k] the table keeps the [k] tokens of highest document
    frequency, and only them. *)
Lemma fitted_table_set {SI : SetIteration} (z : Z) (X : list string) :
  (0 < z)%Z ->
  keys (fitted_table (Some z) X)
  = firstn (Z.to_nat z) (ranked (df X) (set_iter (tokens X)))
  /\ StronglySorted (fun a b => df X b <= df X a) (keys (fitted_table (Some z) X))
  /\ Z.of_nat (length (fitted_table (Some z) X))
     = Z.min z (Z.of_nat (distinct_token_count X)).
Proof.
  intros Hz. unfold fitted_table, retained, truthy.
  destruct (z =? 0)%Z eqn:E; [apply Z.eqb_eq in E; lia|]. simpl.
  rewrite keys_tabulate, length_tabulate. split; [reflexivity|split].
  - apply StronglySorted_firstn, (ranked_sorted (df X)).
  - rewrite length_firstn, ranked_length, set_iter_length.
    unfold distinct_token_count. lia.
Qed.

(** C5, at k = 0.  With k set to 0 the guard [if self.k:] is false, no token
    is dropped, and the table of the corpus ["a"] has one entry, which is
    more than k. *)
Theorem TfIdf_fit_k_zero {SI : SetIteration} (nz : bool) :
  exists table : dict R,
    TfIdf_fit ["a"] (TfIdf_init (Some 0%Z) nz)
    = (Ok (mkTfIdf (Some 0%Z) nz (Some table)),
       mkTfIdf (Some 0%Z) nz (Some table))
    /\ keys table = ["a"]
    /\ length table = 1
    /\ ~ (Z.of_nat (length table) <= 0)%Z.
Proof.
  exists (fitted_table (Some 0%Z) ["a"]).
  assert (Hk : keys (fitted_table (Some 0%Z) ["a"]) = ["a"]).
  { unfold fitted_table, retained. simpl. rewrite keys_tabulate.
    apply set_iter_single. }
  assert (Hl : length (fitted_table (Some 0%Z) ["a"]) = 1).
  { unfold keys in Hk. rewrite <- (length_map fst), Hk. reflexivity. }
  split; [|split; [|split]].
  - apply (TfIdf_fit_eq ["a"] (TfIdf_init (Some 0%Z) nz)).
  - exact Hk.
  - exact Hl.
  - rewrite Hl. simpl. lia.
Qed.

(** C6, refuted as stated.  In the corpus ["a"] the token "a" has df = 1 <= N
    = 1 and the negative score ln (1/2). *)
Lemma idf_negative_at_df_N :
  exists (table : dict R) (v : R),
    TfIdf_fit ["a"] (TfIdf_init None false)
    = (Ok (mkTfIdf None false (Some table)), mkTfIdf None false (Some table))
    /\ In ("a", v) table
    /\ df ["a"] "a" <= length ["a"]
    /\ ~ (0 <= v)%R.
Proof.
  exists (fitted_table None ["a"]), (idf_score ["a"] "a").
  split; [|split; [|split]].
  - apply (TfIdf_fit_eq ["a"] (TfIdf_init None false)).
  - unfold fitted_table. apply In_tabulate. split; [|reflexivity].
    simpl. now left.
  - apply df_le_length.
  - apply Rlt_not_le. unfold idf_score.
    apply ln_ratio_neg; vm_compute; lia.
Qed.

(** C6, amended.  For every corpus of size N, [TfIdf.fit] raises nothing, and
    every token of its table whose document frequency df satisfies df < N has
    a score that is the logarithm of a positive number and is non-negative. *)
Theorem idf_nonneg_below_N {SI : SetIteration} (self : TfIdf) (X : list string) :
  exists table : dict R,
    TfIdf_fit X self
    = (Ok (mkTfIdf (TfIdf_k self) (TfIdf_normalize self) (Some table)),
       mkTfIdf (TfIdf_k self) (TfIdf_normalize self) (Some table))
    /\ forall w v, In (w, v) table -> df X w < length X ->
         (0 < INR (length X) / INR (df X w + 1))%R
         /\ v = ln (INR (length X) / INR (df X w + 1))
         /\ (0 <= v)%R.
Proof.
  exists (fitted_table (TfIdf_k self) X). split.
  - apply TfIdf_fit_eq.
  - intros w v Hin Hlt. apply fitted_table_In in Hin. destruct Hin as [_ ->].
    split; [|split].
    + apply ratio_pos. lia.
    + reflexivity.
    + unfold idf_score. apply ln_ratio_nonneg. lia.
Qed.

(** ** Normalised rows *)

Lemma norm_gap (n : R) :
  (0 <= n)%R -> (Rabs (n / (n + EPS) - 1) = EPS / (n + EPS))%R.
Proof.
  intros Hn. pose proof EPS_pos as He.
  assert (Hpos : (0 < EPS / (n + EPS))%R).
  { apply Rdiv_lt_0_compat; lra. }
  replace (n / (n + EPS) - 1)%R with (- (EPS / (n + EPS)))%R by (field; lra).
  rewrite Rabs_Ropp. apply Rabs_pos_eq. lra.
Qed.

Lemma norm_gap_le (n : R) :
  (0 <= n)%R -> ((EPS / (n + EPS) <= EPS)%R <-> (1 - EPS <= n)%R).
Proof.
  intros Hn. pose proof EPS_pos as He.
  assert (Hc : (0 < n + EPS)%R) by lra.
  split; intros H.
  - apply (Rmult_le_compat_r (n + EPS)) in H; [|lra].
    unfold Rdiv in H. rewrite Rmult_assoc, Rinv_l, Rmult_1_r in H by lra.
    assert (H1 : (EPS * 1 <= EPS * (n + EPS))%R) by lra.
    apply Rmult_le_reg_l in H1; lra.
  - apply (Rmult_le_reg_r (n + EPS)); [lra|].
    unfold Rdiv. rewrite Rmult_assoc, Rinv_l, Rmult_1_r by lra.
    assert (H1 : (EPS * 1 <= EPS * (n + EPS))%R).
    { apply Rmult_le_compat_l; lra. }
    lra.
Qed.

Lemma ln_two_thirds_bounds :
  (- (1 / 2) < ln (INR 2 / INR (2 + 1)) < 0)%R.
Proof.
  split.
  - rewrite <- (ln_exp (- (1 / 2))). apply ln_increasing; [apply exp_pos|].
    rewrite exp_Ropp.
    assert (H : (1 + 1 / 2 < exp (1 / 2))%R) by (apply exp_ineq1; lra).
    replace (INR 2 / INR (2 + 1))%R with (/ (3 / 2))%R by (simpl; field).
    apply Rinv_lt_contravar; [|lra].
    apply Rmult_lt_0_compat; lra.
  - apply ln_ratio_neg; lia.
Qed.

Lemma l2norm_single (x : R) : l2norm [x] = Rabs x.
Proof.
  unfold l2norm. simpl. rewrite Rplus_0_r. apply sqrt_Rsqr_abs.
Qed.

(** C7, refuted as stated.  Fit on ["a"; "a"] with normalize=True: the row of
    the text "a" is not zero and its norm is further than 1e-4 from 1. *)
Lemma normalized_row_not_within_eps :
  exists (self : TfIdf) (row : list R),
    TfIdf_fit ["a"; "a"] (TfIdf_init None true) = (Ok self, self)
    /\ TfIdf_transform ["a"] self = (Ok [row], self)
    /\ (exists x, In x row /\ x <> 0%R)
    /\ ~ (Rabs (l2norm row - 1) <= EPS)%R.
Proof.
  pose proof ln_two_thirds_bounds as [Hlo Hhi].
  pose proof EPS_pos as He.
  set (x := ln (INR 2 / INR (2 + 1))) in *.
  assert (Htab : fitted_table None ["a"; "a"] = tabulate (fun _ => x) ["a"]).
  { reflexivity. }
  assert (Hn : l2norm [(INR 1 * x)%R] = (- x)%R).
  { rewrite l2norm_single. simpl. rewrite Rmult_1_l. apply Rabs_left, Hhi. }
  exists (mkTfIdf None true (Some (tabulate (fun _ => x) ["a"]))).
  exists (normalized [(INR 1 * x)%R]).
  split; [|split; [|split]].
  - rewrite <- Htab. apply (TfIdf_fit_eq ["a"; "a"] (TfIdf_init None true)).
  - rewrite TfIdf_transform_eq by (repeat constructor; simpl; tauto).
    reflexivity.
  - exists (INR 1 * x / (l2norm [(INR 1 * x)%R] + EPS))%R. split.
    + simpl. now left.
    + rewrite Hn. simpl. rewrite Rmult_1_l. intros H.
      apply (Rmult_eq_compat_r (- x + EPS)) in H.
      unfold Rdiv in H. rewrite Rmult_assoc, Rinv_l in H by lra. lra.
  - rewrite l2norm_normalized, Hn, norm_gap by lra.
    intros H. apply norm_gap_le in H; [|lra]. unfold EPS in H. lra.
Qed.

(** C7, amended.  For every fit TfIdf transformer with normalize=True, each
    row of [transform] is the tf-idf vector of its text divided by the
    vector's L2 norm n plus 1e-4; the norm of the row is n / (n + 1e-4), which
    is below 1 by 1e-4 / (n + 1e-4), and so is within 1e-4 of 1.0 exactly
    when n >= 1 - 1e-4. *)
Theorem TfIdf_transform_normalized {SI : SetIteration} (k : option Z)
  (old : option (dict R)) (corpus : list string) (text : string)
  (X : list string) :
  exists table : dict R,
    TfIdf_fit corpus (mkTfIdf k true old)
    = (Ok (mkTfIdf k true (Some table)), mkTfIdf k true (Some table))
    /\ TfIdf_transform (text :: X) (mkTfIdf k true (Some table))
       = (Ok (map (fun t => normalized (tf_idf_row table t)) (text :: X)),
          mkTfIdf k true (Some table))
    /\ forall t : string,
         tf_idf_raw table t = Ok (tf_idf_row table t)
         /\ normalized (tf_idf_row table t)
            = map (fun x => x / (l2norm (tf_idf_row table t) + 1 / 10000))%R
                (tf_idf_row table t)
         /\ l2norm (normalized (tf_idf_row table t))
            = (l2norm (tf_idf_row table t)
               / (l2norm (tf_idf_row table t) + 1 / 10000))%R
         /\ (l2norm (normalized (tf_idf_row table t)) < 1)%R
         /\ (Rabs (l2norm (normalized (tf_idf_row table t)) - 1)
             = (1 / 10000) / (l2norm (tf_idf_row table t) + 1 / 10000))%R
         /\ ((Rabs (l2norm (normalized (tf_idf_row table t)) - 1)
              <= 1 / 10000)%R
             <-> (1 - 1 / 10000 <= l2norm (tf_idf_row table t))%R).
Proof.
  exists (fitted_table k corpus).
  assert (Hnd : NoDup (retained k (df corpus) (set_iter (tokens corpus)))).
  { apply retained_NoDup, set_iter_NoDup. }
  split; [|split].
  - apply (TfIdf_fit_eq corpus (mkTfIdf k true old)).
  - unfold fitted_table. rewrite TfIdf_transform_eq by exact Hnd. reflexivity.
  - intros t. fold EPS.
    pose proof (l2norm_nonneg (tf_idf_row (fitted_table k corpus) t)) as Hn.
    pose proof EPS_pos as He.
    split; [|split; [|split; [|split; [|split]]]].
    + unfold fitted_table. apply tf_idf_raw_eq, Hnd.
    + reflexivity.
    + apply l2norm_normalized.
    + rewrite l2norm_normalized.
      apply (Rmult_lt_reg_r (l2norm (tf_idf_row (fitted_table k corpus) t) + EPS));
        [lra|].
      unfold Rdiv. rewrite Rmult_assoc, Rinv_l by lra. lra.
    + rewrite l2norm_normalized. apply norm_gap, Hn.
    + rewrite l2norm_normalized, norm_gap by exact Hn.
      apply norm_gap_le, Hn.
Qed.

(** ** Rows over a fitted table *)

Section FittedRows.
Context {SI : SetIteration}.

Lemma fitted_keys_NoDup (k : option Z) (corpus : list string) :
  NoDup (retained k (df corpus) (set_iter (tokens corpus))).
Proof. apply retained_NoDup, set_iter_NoDup. Qed.

Lemma tf_idf_raw_fitted (k : option Z) (corpus : list string) (text : string) :
  tf_idf_raw (fitted_table k corpus) text
  = Ok (tf_idf_row (fitted_table k corpus) text).
Proof. unfold fitted_table. apply tf_idf_raw_eq, fitted_keys_NoDup. Qed.

Lemma TfIdf_text_to_tf_idf_fitted (k k' : option Z) (nz : bool)
  (corpus : list string) (text : string) :
  TfIdf_text_to_tf_idf (mkTfIdf k nz (Some (fitted_table k' corpus))) text
  = Ok (TfIdf_row nz (fitted_table k' corpus) text).
Proof.
  unfold fitted_table. apply TfIdf_text_to_tf_idf_eq, fitted_keys_NoDup.
Qed.

Lemma TfIdf_transform_fitted (k k' : option Z) (nz : bool)
  (corpus : list string) (text : string) (X : list string) :
  TfIdf_transform (text :: X) (mkTfIdf k nz (Some (fitted_table k' corpus)))
  = (Ok (map (TfIdf_row nz (fitted_table k' corpus)) (text :: X)),
     mkTfIdf k nz (Some (fitted_table k' corpus))).
Proof. unfold fitted_table. apply TfIdf_transform_eq, fitted_keys_NoDup. Qed.

End FittedRows.

(** ** Empty corpus *)

Lemma BoW_fit_empty {SI : SetIteration} (self : BoW) :
  BoW_fit [] self
  = (Ok (mkBoW (BoW_k self) (Some [])), mkBoW (BoW_k self) (Some [])).
Proof.
  unfold BoW_fit. rewrite BoW_fit_bow_eq.
  replace (slice_to (BoW_k self) (ranked (occurrences []) (set_iter (tokens []))))
    with (@nil string); [reflexivity|].
  change (tokens []) with (@nil string). rewrite set_iter_nil.
  unfold slice_to. simpl. rewrite !firstn_nil.
  destruct (BoW_k self <? 0)%Z; reflexivity.
Qed.

Lemma fitted_table_empty {SI : SetIteration} (k : option Z) :
  fitted_table k [] = [].
Proof.
  unfold fitted_table, retained. change (tokens []) with (@nil string).
  rewrite set_iter_nil. destruct (truthy k); [|reflexivity].
  simpl. rewrite firstn_nil. reflexivity.
Qed.

(** C8, refuted as stated.  After [fit] on an empty corpus, [transform] of an
    empty batch returns no array of shape (0, 0): [np.stack] raises. *)
Lemma transform_empty_batch_raises :
  exists self : BoW,
    BoW_fit [] (BoW_init 3) = (Ok self, self)
    /\ BoW_bow self = Some []
    /\ fst (BoW_transform [] self) = Raise ValueError
    /\ ~ (exists rows, fst (BoW_transform [] self) = Ok rows).
Proof.
  exists (mkBoW 3 (Some [])). split; [|split; [|split]].
  - reflexivity.
  - reflexivity.
  - reflexivity.
  - intros [rows H]. discriminate H.
Qed.

(** C8, amended.  For both components, [fit] on an empty corpus stores an
    empty vocabulary / an empty table, and every later [transform] of a
    non-empty batch returns one row per text, each of width zero. *)
Theorem empty_corpus_zero_width {SI : SetIteration} (b : BoW) (t : TfIdf)
  (text : string) (X : list string) :
  let b' := mkBoW (BoW_k b) (Some []) in
  let t' := mkTfIdf (TfIdf_k t) (TfIdf_normalize t) (Some []) in
  BoW_fit [] b = (Ok b', b')
  /\ BoW_transform (text :: X) b' = (Ok (map (fun _ => []) (text :: X)), b')
  /\ TfIdf_fit [] t = (Ok t', t')
  /\ TfIdf_transform (text :: X) t' = (Ok (map (fun _ => []) (text :: X)), t')
  /\ length (map (fun _ : string => @nil R) (text :: X)) = length (text :: X).
Proof.
  intros b' t'. split; [|split; [|split; [|split]]].
  - apply BoW_fit_empty.
  - unfold b'. rewrite BoW_transform_eq by constructor. reflexivity.
  - unfold t'. rewrite TfIdf_fit_eq, fitted_table_empty. reflexivity.
  - unfold t'. change (@nil (string * R)) with (tabulate (fun _ => 0%R) []).
    rewrite TfIdf_transform_eq by constructor.
    f_equal. f_equal. apply map_ext. intros s.
    unfold TfIdf_row. destruct (TfIdf_normalize t); reflexivity.
  - apply length_map.
Qed.

(** C9. For every transformer of either component, fit or not, [transform]
    leaves the object, and so its vocabulary or table, as it was, and a
    second [transform] of the same input has the same outcome as the first. *)
Theorem transform_frame (b : BoW) (t : TfIdf) (X : list string) :
  snd (BoW_transform X b) = b
  /\ BoW_bow (snd (BoW_transform X b)) = BoW_bow b
  /\ fst (BoW_transform X (snd (BoW_transform X b))) = fst (BoW_transform X b)
  /\ snd (TfIdf_transform X t) = t
  /\ TfIdf_idf (snd (TfIdf_transform X t)) = TfIdf_idf t
  /\ fst (TfIdf_transform X (snd (TfIdf_transform X t)))
     = fst (TfIdf_transform X t).
Proof.
  assert (Hb : snd (BoW_transform X b) = b).
  { unfold BoW_transform. destruct (BoW_bow b); reflexivity. }
  assert (Ht : snd (TfIdf_transform X t) = t).
  { unfold TfIdf_transform. destruct (TfIdf_idf t); reflexivity. }
  rewrite Hb, Ht. repeat split; reflexivity.
Qed.

(** C10. For every fit TfIdf transformer with normalize=True: the row
    [_text_to_tf_idf] returns for any text is the text's tf-idf vector with
    every entry divided by the vector's L2 norm plus EPS, a divisor that is
    positive, so that no division by zero occurs; and for a text none of
    whose tokens is in the table, the tf-idf vector is zero, the divisor is
    1e-4, and the row returned, zero divided by 1e-4 in every entry, is zero
    in every entry; nothing raises. *)
Theorem TfIdf_unknown_text_zero_row {SI : SetIteration} (k : option Z)
  (old : option (dict R)) (corpus : list string) (text : string) :
  (forall w, In w (split text) -> ~ In w (keys (fitted_table k corpus))) ->
  let table := fitted_table k corpus in
  let zero := repeat 0%R (length table) in
  TfIdf_fit corpus (mkTfIdf k true old)
  = (Ok (mkTfIdf k true (Some table)), mkTfIdf k true (Some table))
  /\ (forall t : string,
        exists raw : list R,
          tf_idf_raw table t = Ok raw
          /\ raw = tf_idf_row table t
          /\ (0 < l2norm raw + EPS)%R
          /\ TfIdf_text_to_tf_idf (mkTfIdf k true (Some table)) t
             = Ok (map (fun x => x / (l2norm raw + EPS))%R raw))
  /\ tf_idf_raw table text = Ok zero
  /\ (l2norm zero + EPS = 1 / 10000)%R
  /\ (0 < l2norm zero + EPS)%R
  /\ TfIdf_text_to_tf_idf (mkTfIdf k true (Some table)) text
     = Ok (map (fun x => x / (l2norm zero + EPS))%R zero)
  /\ map (fun x => x / (l2norm zero + EPS))%R zero = zero
  /\ TfIdf_text_to_tf_idf (mkTfIdf k true (Some table)) text = Ok zero
  /\ TfIdf_transform [text] (mkTfIdf k true (Some table))
     = (Ok [zero], mkTfIdf k true (Some table)).
Proof.
  intros Hunk table zero.
  assert (Hrow : tf_idf_row table text = zero).
  { apply tf_idf_row_unknown, Hunk. }
  assert (Hnorm : TfIdf_row true table text = zero).
  { unfold TfIdf_row. rewrite Hrow. apply normalized_zeros. }
  assert (Hcode : forall t,
            TfIdf_text_to_tf_idf (mkTfIdf k true (Some table)) t
            = Ok (map (fun x => x / (l2norm (tf_idf_row table t) + EPS))%R
                    (tf_idf_row table t))).
  { intros t. exact (TfIdf_text_to_tf_idf_fitted k k true corpus t). }
  split; [apply (TfIdf_fit_eq corpus (mkTfIdf k true old))|].
  split.
  { intros t. exists (tf_idf_row table t).
    split; [apply tf_idf_raw_fitted|]. split; [reflexivity|].
    split; [|apply Hcode].
    pose proof (l2norm_nonneg (tf_idf_row table t)). pose proof EPS_pos. lra. }
  split; [rewrite <- Hrow; apply tf_idf_raw_fitted|].
  split; [unfold zero; rewrite l2norm_zeros; unfold EPS; lra|].
  split; [unfold zero; rewrite l2norm_zeros; pose proof EPS_pos; lra|].
  split; [rewrite <- Hrow; apply Hcode|].
  split; [exact (normalized_zeros (length table))|].
  split; [rewrite <- Hnorm; apply TfIdf_text_to_tf_idf_fitted|].
  rewrite <- Hnorm. apply TfIdf_transform_fitted.
Qed.

Lemma TfIdf_unknown_text_zero_row_witness :
  (forall w, In w (split "b") -> ~ In w (keys (fitted_table None ["a"])))
  /\ (0 < l2norm (repeat 0%R (length (fitted_table None ["a"]))) + EPS)%R
  /\ TfIdf_text_to_tf_idf
       (mkTfIdf None true (Some (fitted_table None ["a"]))) "b"
     = Ok (map (fun x => x / (l2norm (repeat 0%R
                                        (length (fitted_table None ["a"])))
                              + EPS))%R
             (repeat 0%R (length (fitted_table None ["a"]))))
  /\ TfIdf_transform ["b"] (mkTfIdf None true (Some (fitted_table None ["a"])))
     = (Ok [repeat 0%R (length (fitted_table None ["a"]))],
        mkTfIdf None true (Some (fitted_table None ["a"]))).
Proof.
  assert (H : forall w, In w (split "b")
                        -> ~ In w (keys (fitted_table None ["a"]))).
  { unfold fitted_table. rewrite keys_tabulate. simpl.
    intros w [<-|[]] [E|[]]. discriminate E. }
  split; [exact H|].
  destruct (TfIdf_unknown_text_zero_row None None ["a"] "b" H)
    as [_ [_ [_ [_ [Hpos [Hdiv [_ [_ Htr]]]]]]]].
  split; [exact Hpos|]. split; [exact Hdiv|exact Htr].
Defined.

(** ** The amended statements at concrete inputs *)

(** In the corpus ["a b"; "a"] the token "b" has df = 1 < N = 2 and the
    score ln (2/2), which is not negative. *)
Lemma idf_nonneg_below_N_witness :
  exists (table : dict R) (v : R),
    TfIdf_fit ["a b"; "a"] (TfIdf_init None false)
    = (Ok (mkTfIdf None false (Some table)), mkTfIdf None false (Some table))
    /\ In ("b", v) table
    /\ df ["a b"; "a"] "b" < length ["a b"; "a"]
    /\ v = ln (INR 2 / INR (1 + 1))
    /\ (0 <= v)%R.
Proof.
  destruct (idf_nonneg_below_N (TfIdf_init None false) ["a b"; "a"])
    as [table [Hfit H]].
  assert (Hin : In ("b", idf_score ["a b"; "a"] "b") table).
  { rewrite (TfIdf_fit_eq ["a b"; "a"] (TfIdf_init None false)) in Hfit.
    injection Hfit as Ht. rewrite <- Ht.
    unfold fitted_table. apply In_tabulate. split; [|reflexivity].
    simpl. now left. }
  assert (Hlt : df ["a b"; "a"] "b" < length ["a b"; "a"]).
  { vm_compute. lia. }
  exists table, (idf_score ["a b"; "a"] "b").
  split; [exact Hfit|]. split; [exact Hin|]. split; [exact Hlt|].
  split; [reflexivity|].
  apply (H _ _ Hin Hlt).
Defined.

Lemma ln_three_ge_one : (1 <= ln (INR 6 / INR (1 + 1)))%R.
Proof.
  replace (INR 6 / INR (1 + 1))%R with 3%R by (simpl; field).
  rewrite <- (ln_exp 1) at 1.
  destruct exp_le_3 as [Hlt|Heq].
  - left. apply ln_increasing; [apply exp_pos|exact Hlt].
  - rewrite Heq. right. reflexivity.
Qed.

(** In a corpus of six documents of which one holds "a", the text "a" has a
    tf-idf vector of norm ln 3 >= 1 - 1e-4, and its normalised row is within
    1e-4 of norm 1. *)
Lemma TfIdf_transform_normalized_witness :
  exists table : dict R,
    TfIdf_fit ["a"; "b"; "b"; "b"; "b"; "b"] (mkTfIdf None true None)
    = (Ok (mkTfIdf None true (Some table)), mkTfIdf None true (Some table))
    /\ (1 - 1 / 10000 <= l2norm (tf_idf_row table "a"))%R
    /\ (Rabs (l2norm (normalized (tf_idf_row table "a")) - 1) <= 1 / 10000)%R.
Proof.
  destruct (TfIdf_transform_normalized None None
              ["a"; "b"; "b"; "b"; "b"; "b"] "a" [])
    as [table [Hfit [_ H]]].
  exists table. split; [exact Hfit|].
  rewrite (TfIdf_fit_eq ["a"; "b"; "b"; "b"; "b"; "b"] (mkTfIdf None true None))
    in Hfit.
  injection Hfit as Ht.
  assert (Hn : (1 - 1 / 10000 <= l2norm (tf_idf_row table "a"))%R).
  { rewrite <- Ht.
    set (x := ln (INR 6 / INR (1 + 1))).
    set (y := ln (INR 6 / INR (5 + 1))).
    assert (Hrow : tf_idf_row (fitted_table None ["a"; "b"; "b"; "b"; "b"; "b"]) "a"
                   = [(INR 1 * x)%R; (INR 0 * y)%R]) by reflexivity.
    rewrite Hrow. unfold l2norm, sum_squares. simpl.
    replace (1 * x * (1 * x) + (0 * y * (0 * y) + 0))%R with (Rsqr x)
      by (unfold Rsqr; ring).
    pose proof ln_three_ge_one as Hx. fold x in Hx.
    rewrite sqrt_Rsqr by lra. lra. }
  split; [exact Hn|].
  destruct (H "a") as [_ [_ [_ [_ [_ Hiff]]]]].
  apply Hiff, Hn.
Defined.

(** ** Further properties: auxiliary facts *)

Lemma slice_to_firstn {A} (k : Z) (l : list A) :
  exists m, slice_to k l = firstn m l.
Proof.
  unfold slice_to. destruct (k <? 0)%Z; eexists; reflexivity.
Qed.

Lemma StronglySorted_app_cross {A} (R : A -> A -> Prop) (l1 l2 : list A) :
  StronglySorted R (l1 ++ l2) ->
  forall a b, In a l1 -> In b l2 -> R a b.
Proof.
  induction l1 as [|x l1 IH]; simpl; intros Hs a b Ha Hb.
  - contradiction.
  - inversion Hs as [|? ? Hs' Hall]; subst. destruct Ha as [->|Ha].
    + rewrite Forall_forall in Hall. apply Hall, in_or_app. now right.
    + apply IH; assumption.
Qed.

(** What a prefix of a sorted list leaves out is never above what it keeps. *)
Lemma firstn_sorted_cut {A} (R : A -> A -> Prop) (m : nat) (l : list A) :
  StronglySorted R l ->
  forall a b, In a (firstn m l) -> In b l -> ~ In b (firstn m l) -> R a b.
Proof.
  intros Hs a b Ha Hb Hnb. rewrite <- (firstn_skipn m l) in Hs, Hb.
  apply in_app_or in Hb. destruct Hb as [Hb|Hb]; [contradiction|].
  eapply StronglySorted_app_cross; eauto.
Qed.

Section Stability.
Context {A : Type} (key : A -> nat).

Lemma insert_desc_stable (n : nat) (x : A) (l : list A) :
  filter (fun y => key y =? n) (insert_desc key x l)
  = filter (fun y => key y =? n) (x :: l).
Proof.
  induction l as [|y ys IH]; simpl; [reflexivity|].
  destruct (key y <=? key x) eqn:E; [reflexivity|].
  apply Nat.leb_gt in E. simpl. simpl in IH. rewrite IH.
  destruct (key x =? n) eqn:Ex, (key y =? n) eqn:Ey; try reflexivity.
  apply Nat.eqb_eq in Ex, Ey. lia.
Qed.

(** The sort is stable: elements of equal key keep their order. *)
Lemma sorted_desc_stable (n : nat) (l : list A) :
  filter (fun y => key y =? n) (sorted_desc key l)
  = filter (fun y => key y =? n) l.
Proof.
  induction l as [|x l IH]; simpl; [reflexivity|].
  rewrite insert_desc_stable. simpl. rewrite IH. reflexivity.
Qed.

End Stability.

Lemma filter_map_fst {V} (p : string -> bool) (l : dict V) :
  filter p (map fst l) = map fst (filter (fun q => p (fst q)) l).
Proof.
  induction l as [|q l IH]; simpl; [reflexivity|].
  rewrite IH. destruct (p (fst q)); reflexivity.
Qed.

Lemma ranked_stable (c : string -> nat) (ks : list string) (n : nat) :
  filter (fun w => c w =? n) (ranked c ks) = filter (fun w => c w =? n) ks.
Proof.
  unfold ranked. rewrite (filter_map_fst (fun w => c w =? n)).
  rewrite (filter_ext_in (fun q : string * nat => c (fst q) =? n)
             (fun q => snd q =? n)).
  2:{ intros [w v] Hq.
      apply (Permutation_in _ (Permutation_sym (sorted_desc_perm snd _))) in Hq.
      apply In_tabulate in Hq. destruct Hq as [_ ->]. reflexivity. }
  rewrite sorted_desc_stable.
  rewrite (filter_ext_in (fun q : string * nat => snd q =? n)
             (fun q => c (fst q) =? n)).
  2:{ intros [w v] Hq. apply In_tabulate in Hq. destruct Hq as [_ ->].
      reflexivity. }
  rewrite <- (filter_map_fst (fun w => c w =? n)). fold (keys (tabulate c ks)).
  rewrite keys_tabulate. reflexivity.
Qed.

Lemma no_space_app (a b : string) :
  no_space (a ++ b) = no_space a && no_space b.
Proof.
  induction a as [|c a IH]; simpl; [reflexivity|].
  rewrite IH. apply andb_assoc.
Qed.

Lemma emit_In (cur : string) (l : list string) (w : string) :
  In w (emit cur l) -> (w = cur /\ cur <> "") \/ In w l.
Proof.
  unfold emit. destruct (string_dec cur "") as [E|E]; simpl.
  - auto.
  - intros [<-|H]; auto.
Qed.

(** The tokens of [split] are never empty and hold no whitespace. *)
Lemma split_from_tokens (cur s w : string) :
  no_space cur = true -> In w (split_from cur s) ->
  w <> "" /\ no_space w = true.
Proof.
  revert cur. induction s as [|c s IH]; simpl; intros cur Hcur Hw.
  - apply emit_In in Hw. destruct Hw as [[-> Hne]|[]]. auto.
  - destruct (isspace c) eqn:Ec.
    + apply emit_In in Hw. destruct Hw as [[-> Hne]|Hw]; [auto|].
      apply (IH ""); [reflexivity|exact Hw].
    + apply (IH (cur ++ String c "")); [|exact Hw].
      rewrite no_space_app, Hcur. simpl. rewrite Ec. reflexivity.
Qed.

Lemma string_app_assoc (a b c : string) : ((a ++ b) ++ c = a ++ (b ++ c))%string.
Proof. induction a as [|x a IH]; simpl; [reflexivity|]. rewrite IH. reflexivity. Qed.

Lemma split_from_no_space (cur s : string) :
  no_space s = true -> split_from cur s = emit (cur ++ s) [].
Proof.
  revert cur. induction s as [|c s IH]; simpl; intros cur Hs.
  - replace (cur ++ "")%string with cur; [reflexivity|].
    induction cur as [|x cur IHc]; simpl; [reflexivity|]. rewrite <- IHc.
    reflexivity.
  - apply andb_prop in Hs. destruct Hs as [Hc Hs].
    apply negb_true_iff in Hc. rewrite Hc. rewrite (IH _ Hs).
    rewrite string_app_assoc. reflexivity.
Qed.

(** A token splits into itself. *)
Lemma split_token (w : string) :
  w <> "" -> no_space w = true -> split w = [w].
Proof.
  intros Hne Hns. unfold split. rewrite split_from_no_space by exact Hns.
  simpl. unfold emit. destruct (string_dec w ""); [contradiction|reflexivity].
Qed.

Lemma tokens_split (X : list string) (w : string) :
  In w (tokens X) -> split w = [w].
Proof.
  unfold tokens. intros H. apply in_flat_map in H. destruct H as [d [_ Hw]].
  unfold split in Hw. apply split_from_tokens in Hw; [|reflexivity].
  apply split_token; tauto.
Qed.

(** ** Further properties of BoW *)

Lemma BoW_fit_eq {SI : SetIteration} (X : list string) (self : BoW) :
  BoW_fit X self
  = (Ok (mkBoW (BoW_k self)
           (Some (slice_to (BoW_k self)
                    (ranked (occurrences X) (set_iter (tokens X)))))),
     mkBoW (BoW_k self)
       (Some (slice_to (BoW_k self)
                (ranked (occurrences X) (set_iter (tokens X)))))).
Proof. unfold BoW_fit. rewrite BoW_fit_bow_eq. reflexivity. Qed.

Lemma ranked_In {SI : SetIteration} (c : string -> nat) (X : list string)
  (w : string) :
  In w (ranked c (set_iter (tokens X))) <-> In w (tokens X).
Proof.
  rewrite <- (set_iter_In (tokens X) w). split; intros H.
  - eapply Permutation_in; [apply Permutation_sym, ranked_perm|exact H].
  - eapply Permutation_in; [apply ranked_perm|exact H].
Qed.

(** X1. For every corpus and every k, the vocabulary [BoW.fit] stores holds
    tokens of the corpus only, and no token of the corpus that is left out
    occurs more often than a token that is kept. *)
Theorem BoW_fit_keeps_most_frequent {SI : SetIteration} (self : BoW)
  (X : list string) :
  exists bow : list string,
    BoW_fit X self
    = (Ok (mkBoW (BoW_k self) (Some bow)), mkBoW (BoW_k self) (Some bow))
    /\ (forall w, In w bow -> In w (tokens X))
    /\ (forall kept dropped,
          In kept bow -> In dropped (tokens X) -> ~ In dropped bow ->
          occurrences X dropped <= occurrences X kept).
Proof.
  eexists. split; [apply BoW_fit_eq|].
  destruct (slice_to_firstn (BoW_k self)
              (ranked (occurrences X) (set_iter (tokens X)))) as [m ->].
  split.
  - intros w Hw. apply firstn_incl in Hw. apply ranked_In in Hw. exact Hw.
  - intros kept dropped Hk Hd Hnd.
    apply (firstn_sorted_cut (desc (occurrences X)) m
             (ranked (occurrences X) (set_iter (tokens X)))).
    + apply ranked_sorted.
    + exact Hk.
    + apply ranked_In, Hd.
    + exact Hnd.
Qed.

(** X2. With a negative k, [BoW.fit] raises nothing and drops the -k least
    frequent tokens: the distinct tokens of the corpus split into the
    vocabulary and the dropped tokens, there are min(-k, distinct) dropped
    tokens and max(0, distinct + k) kept ones, the vocabulary followed by the
    dropped tokens is in order of non-increasing occurrence count, and no
    dropped token occurs more often than a kept one. *)
Theorem BoW_fit_negative_k {SI : SetIteration} (self : BoW) (X : list string) :
  (BoW_k self < 0)%Z ->
  exists bow rest : list string,
    BoW_fit X self
    = (Ok (mkBoW (BoW_k self) (Some bow)), mkBoW (BoW_k self) (Some bow))
    /\ Permutation (bow ++ rest) (nodup string_dec (tokens X))
    /\ Z.of_nat (length rest)
       = Z.min (- BoW_k self) (Z.of_nat (distinct_token_count X))
    /\ Z.of_nat (length bow)
       = Z.max 0 (Z.of_nat (distinct_token_count X) + BoW_k self)
    /\ StronglySorted (fun a b => occurrences X b <= occurrences X a)
         (bow ++ rest)
    /\ (forall kept dropped, In kept bow -> In dropped rest ->
          occurrences X dropped <= occurrences X kept).
Proof.
  intros Hk.
  set (full := ranked (occurrences X) (set_iter (tokens X))).
  set (m := Z.to_nat (Z.of_nat (length full) + BoW_k self)).
  assert (Hslice : slice_to (BoW_k self) full = firstn m full).
  { unfold slice_to. destruct (BoW_k self <? 0)%Z eqn:E; [reflexivity|].
    apply Z.ltb_ge in E. lia. }
  assert (Hlen : length full = distinct_token_count X).
  { unfold full. rewrite ranked_length, set_iter_length. reflexivity. }
  assert (Hsorted : StronglySorted (desc (occurrences X)) full).
  { apply ranked_sorted. }
  exists (firstn m full), (skipn m full).
  rewrite firstn_skipn.
  split; [rewrite <- Hslice; apply BoW_fit_eq|].
  split.
  { apply NoDup_Permutation.
    - apply ranked_NoDup, set_iter_NoDup.
    - apply NoDup_nodup.
    - intros w. unfold full. rewrite ranked_In, nodup_In. reflexivity. }
  split; [rewrite length_skipn; unfold m; lia|].
  split; [rewrite length_firstn; unfold m; lia|].
  split; [exact Hsorted|].
  intros kept dropped Hkept Hdropped.
  apply (StronglySorted_app_cross (desc (occurrences X))
           (firstn m full) (skipn m full)); [|exact Hkept|exact Hdropped].
  rewrite firstn_skipn. exact Hsorted.
Qed.

Lemma BoW_fit_negative_k_witness :
  (BoW_k (BoW_init (-1)) < 0)%Z /\
  exists bow rest : list string,
    BoW_fit ["a b b"; "b c"] (BoW_init (-1))
    = (Ok (mkBoW (-1) (Some bow)), mkBoW (-1) (Some bow))
    /\ Permutation (bow ++ rest)
         (nodup string_dec (tokens ["a b b"; "b c"]))
    /\ Z.of_nat (length rest)
       = Z.min (- -1) (Z.of_nat (distinct_token_count ["a b b"; "b c"]))
    /\ Z.of_nat (length bow)
       = Z.max 0 (Z.of_nat (distinct_token_count ["a b b"; "b c"]) + -1)
    /\ StronglySorted
         (fun a b => occurrences ["a b b"; "b c"] b
                     <= occurrences ["a b b"; "b c"] a) (bow ++ rest)
    /\ (forall kept dropped, In kept bow -> In dropped rest ->
          occurrences ["a b b"; "b c"] dropped
          <= occurrences ["a b b"; "b c"] kept).
Proof.
  split.
  - simpl. lia.
  - apply (BoW_fit_negative_k (BoW_init (-1)) ["a b b"; "b c"]). simpl. lia.
Defined.

(** With k = -1 the corpus ["a b b"; "b c"] keeps its most frequent token
    first and drops one of the two tokens that occur once. *)
Example BoW_fit_negative_k_scenario :
  BoW_fit ["a b b"; "b c"] (BoW_init (-1))
  = (Ok (mkBoW (-1) (Some ["b"; "a"])), mkBoW (-1) (Some ["b"; "a"])).
Proof. reflexivity. Qed.

(** X3. Ties are broken by the iteration order of the set of tokens: the
    vocabulary is a slice of a rearrangement of that set in which the tokens
    of any one count stand in the order the set yields them. *)
Theorem BoW_fit_ties_keep_set_order {SI : SetIteration} (self : BoW)
  (X : list string) :
  exists full : list string,
    BoW_fit X self
    = (Ok (mkBoW (BoW_k self) (Some (slice_to (BoW_k self) full))),
       mkBoW (BoW_k self) (Some (slice_to (BoW_k self) full)))
    /\ Permutation (set_iter (split (join " " X))) full
    /\ forall n,
         filter (fun w => occurrences X w =? n) full
         = filter (fun w => occurrences X w =? n)
             (set_iter (split (join " " X))).
Proof.
  exists (ranked (occurrences X) (set_iter (tokens X))).
  rewrite split_join. split; [apply BoW_fit_eq|]. split.
  - apply ranked_perm.
  - intros n. apply ranked_stable.
Qed.

(** X4. When k is at least the number of distinct tokens, the vocabulary
    holds exactly the tokens of the corpus, and the row of a document of the
    corpus adds up to the number of tokens of that document. *)
Theorem BoW_fit_covers_corpus {SI : SetIteration} (self : BoW)
  (X : list string) :
  (Z.of_nat (distinct_token_count X) <= BoW_k self)%Z ->
  exists bow : list string,
    BoW_fit X self
    = (Ok (mkBoW (BoW_k self) (Some bow)), mkBoW (BoW_k self) (Some bow))
    /\ (forall w, In w bow <-> In w (tokens X))
    /\ forall d, In d X ->
         BoW_text_to_bow (mkBoW (BoW_k self) (Some bow)) d = Ok (bow_row bow d)
         /\ list_sum (bow_row bow d) = length (split d).
Proof.
  intros Hk. eexists. split; [apply BoW_fit_eq|].
  assert (Hall : slice_to (BoW_k self)
                   (ranked (occurrences X) (set_iter (tokens X)))
                 = ranked (occurrences X) (set_iter (tokens X))).
  { rewrite slice_to_nonneg by lia. apply firstn_all2.
    rewrite ranked_length, set_iter_length.
    unfold distinct_token_count in Hk. lia. }
  rewrite Hall.
  assert (Hnd : NoDup (ranked (occurrences X) (set_iter (tokens X)))).
  { apply ranked_NoDup, set_iter_NoDup. }
  split; [intros w; apply ranked_In|].
  intros d Hd. split; [apply BoW_text_to_bow_eq, Hnd|].
  unfold bow_row. rewrite sum_counts by exact Hnd. f_equal.
  apply forallb_filter_id. apply forallb_forall. intros w Hw.
  apply list_contains_In, ranked_In. unfold tokens. apply in_flat_map.
  exists d. auto.
Qed.

Lemma BoW_fit_covers_corpus_witness :
  (Z.of_nat (distinct_token_count ["a b b"; "b c"]) <= BoW_k (BoW_init 5))%Z /\
  exists bow : list string,
    BoW_fit ["a b b"; "b c"] (BoW_init 5)
    = (Ok (mkBoW 5 (Some bow)), mkBoW 5 (Some bow))
    /\ (forall w, In w bow <-> In w (tokens ["a b b"; "b c"]))
    /\ forall d, In d ["a b b"; "b c"] ->
         BoW_text_to_bow (mkBoW 5 (Some bow)) d = Ok (bow_row bow d)
         /\ list_sum (bow_row bow d) = length (split d).
Proof.
  split.
  - vm_compute. discriminate.
  - apply (BoW_fit_covers_corpus (BoW_init 5) ["a b b"; "b c"]).
    vm_compute. discriminate.
Defined.

Lemma BoW_fit_state {SI : SetIteration} (X : list string) (self : BoW) :
  snd (BoW_fit X self)
  = mkBoW (BoW_k self)
      (Some (slice_to (BoW_k self)
               (ranked (occurrences X) (set_iter (tokens X))))).
Proof. rewrite BoW_fit_eq. reflexivity. Qed.

Lemma map_all_zero {A} (f : A -> nat) (l : list A) :
  (forall x, In x l -> f x = 0) -> map f l = repeat 0 (length l).
Proof.
  induction l as [|a l IH]; simpl; intros H; [reflexivity|].
  rewrite (H a (or_introl eq_refl)), IH; [reflexivity|].
  intros x Hx. apply H. now right.
Qed.

Lemma add_rows_map {A} (f g : A -> nat) (l : list A) :
  add_rows (map f l) (map g l) = map (fun x => f x + g x) l.
Proof.
  unfold add_rows. induction l as [|a l IH]; simpl; [reflexivity|].
  rewrite IH. reflexivity.
Qed.

Lemma split_concat_space (t1 t2 : string) :
  split (t1 ++ " " ++ t2) = (split t1 ++ split t2)%list.
Proof. unfold split at 1. simpl. apply split_from_space. Qed.

(** X5. For a fit BoW transformer, a text none of whose tokens is in the
    vocabulary (an empty text among them) has a row of zeros, as wide as the
    vocabulary; nothing raises. *)
Theorem BoW_unknown_text_zero_row {SI : SetIteration} (self : BoW)
  (X : list string) (bow : list string) (text : string) :
  BoW_bow (snd (BoW_fit X self)) = Some bow ->
  (forall w, In w (split text) -> ~ In w bow) ->
  BoW_text_to_bow (snd (BoW_fit X self)) text = Ok (repeat 0 (length bow)).
Proof.
  rewrite BoW_fit_state. cbn [BoW_bow]. intros Hb Hunk.
  injection Hb as Hb. rewrite Hb.
  rewrite BoW_text_to_bow_eq.
  - f_equal. unfold bow_row. apply map_all_zero. intros w Hw.
    apply count_occ_not_In. intros Hin. apply (Hunk w Hin Hw).
  - rewrite <- Hb. apply BoW_fit_bow_NoDup.
Qed.

Lemma BoW_unknown_text_zero_row_witness :
  BoW_text_to_bow (snd (BoW_fit ["a b b"; "b c"] (BoW_init 2))) "zz  c"
  = Ok (repeat 0 (length ["b"; "a"])).
Proof.
  apply (BoW_unknown_text_zero_row (BoW_init 2) ["a b b"; "b c"] ["b"; "a"]).
  - reflexivity.
  - simpl. intros w [<-|[<-|[]]] [E|[E|[]]]; discriminate E.
Defined.

(** X6. The row of a text depends on its tokens as a bag only: two texts
    whose token lists are rearrangements of one another have the same row. *)
Theorem BoW_row_ignores_token_order {SI : SetIteration} (self : BoW)
  (X : list string) (t1 t2 : string) :
  Permutation (split t1) (split t2) ->
  exists row : list nat,
    BoW_text_to_bow (snd (BoW_fit X self)) t1 = Ok row
    /\ BoW_text_to_bow (snd (BoW_fit X self)) t2 = Ok row.
Proof.
  intros Hp. rewrite BoW_fit_state.
  pose proof (BoW_fit_bow_NoDup (BoW_k self) X) as Hnd.
  eexists. split; [apply BoW_text_to_bow_eq, Hnd|].
  rewrite BoW_text_to_bow_eq by exact Hnd. f_equal.
  unfold bow_row. apply map_ext. intros w.
  symmetry. apply (proj1 (Permutation_count_occ string_dec _ _) Hp).
Qed.

Lemma BoW_row_ignores_token_order_witness :
  exists row : list nat,
    BoW_text_to_bow (snd (BoW_fit ["a b b"; "b c"] (BoW_init 2))) "a b" = Ok row
    /\ BoW_text_to_bow (snd (BoW_fit ["a b b"; "b c"] (BoW_init 2))) " b  a"
       = Ok row.
Proof.
  apply (BoW_row_ignores_token_order (BoW_init 2) ["a b b"; "b c"] "a b" " b  a").
  apply perm_swap.
Defined.

(** X7. The row of two texts joined by a space is the entrywise sum of
    their rows. *)
Theorem BoW_row_additive {SI : SetIteration} (self : BoW) (X : list string)
  (t1 t2 : string) :
  exists r1 r2 : list nat,
    BoW_text_to_bow (snd (BoW_fit X self)) t1 = Ok r1
    /\ BoW_text_to_bow (snd (BoW_fit X self)) t2 = Ok r2
    /\ BoW_text_to_bow (snd (BoW_fit X self)) (t1 ++ " " ++ t2)
       = Ok (add_rows r1 r2).
Proof.
  rewrite BoW_fit_state.
  pose proof (BoW_fit_bow_NoDup (BoW_k self) X) as Hnd.
  eexists. eexists.
  split; [apply BoW_text_to_bow_eq, Hnd|].
  split; [apply BoW_text_to_bow_eq, Hnd|].
  rewrite BoW_text_to_bow_eq by exact Hnd. f_equal.
  unfold bow_row. rewrite add_rows_map, split_concat_space.
  apply map_ext. intros w. apply count_occ_app.
Qed.

(** X8. Each vocabulary token, given as a text, has the row with 1 in the
    token's own column and 0 in every other column. *)
Theorem BoW_token_row_one_hot {SI : SetIteration} (self : BoW)
  (X : list string) (bow : list string) (i : nat) (w : string) :
  BoW_bow (snd (BoW_fit X self)) = Some bow ->
  nth_error bow i = Some w ->
  exists row : list nat,
    BoW_text_to_bow (snd (BoW_fit X self)) w = Ok row
    /\ length row = length bow
    /\ nth_error row i = Some 1
    /\ forall j, j <> i -> j < length bow -> nth_error row j = Some 0.
Proof.
  rewrite BoW_fit_state. cbn [BoW_bow]. intros Hb Hi.
  injection Hb as Hb.
  assert (Hnd : NoDup bow) by (rewrite <- Hb; apply BoW_fit_bow_NoDup).
  assert (Htok : In w (tokens X)).
  { apply nth_error_In in Hi. rewrite <- Hb in Hi.
    destruct (slice_to_firstn (BoW_k self)
                (ranked (occurrences X) (set_iter (tokens X)))) as [m Hm].
    rewrite Hm in Hi. apply firstn_incl in Hi. apply ranked_In in Hi.
    exact Hi. }
  rewrite Hb. exists (bow_row bow w).
  split; [apply BoW_text_to_bow_eq, Hnd|].
  unfold bow_row. rewrite (tokens_split X w Htok).
  split; [apply length_map|]. split.
  - rewrite (map_nth_error _ _ _ Hi). simpl.
    destruct (string_dec w w); [reflexivity|contradiction].
  - intros j Hj Hlt.
    destruct (nth_error bow j) as [w'|] eqn:Ej.
    + rewrite (map_nth_error _ _ _ Ej). simpl.
      destruct (string_dec w w') as [<-|]; [|reflexivity].
      exfalso. apply Hj.
      apply (proj1 (NoDup_nth_error bow) Hnd j i Hlt). congruence.
    + exfalso. apply nth_error_Some in Hlt. contradiction.
Qed.

Lemma BoW_token_row_one_hot_witness :
  exists row : list nat,
    BoW_text_to_bow (snd (BoW_fit ["a b b"; "b c"] (BoW_init 2))) "a" = Ok row
    /\ length row = length ["b"; "a"]
    /\ nth_error row 1 = Some 1
    /\ forall j, j <> 1 -> j < length ["b"; "a"] -> nth_error row j = Some 0.
Proof.
  apply (BoW_token_row_one_hot (BoW_init 2) ["a b b"; "b c"] ["b"; "a"] 1 "a");
    reflexivity.
Defined.

Lemma TfIdf_fit_state {SI : SetIteration} (X : list string) (self : TfIdf) :
  snd (TfIdf_fit X self)
  = mkTfIdf (TfIdf_k self) (TfIdf_normalize self)
      (Some (fitted_table (TfIdf_k self) X)).
Proof. rewrite TfIdf_fit_eq. reflexivity. Qed.

(** X9. For fit transformers of both components, the rows of a batch do not
    depend on the other texts of the batch: [transform] of two non-empty
    batches put end to end returns the rows of the first followed by the rows
    of the second. *)
Theorem transform_batches_concatenate {SI : SetIteration} (b : BoW) (t : TfIdf)
  (corpus : list string) (t1 : string) (X1 : list string) (t2 : string)
  (X2 : list string) :
  let b' := snd (BoW_fit corpus b) in
  let t' := snd (TfIdf_fit corpus t) in
  (exists r1 r2 : list (list nat),
      BoW_transform (t1 :: X1) b' = (Ok r1, b')
      /\ BoW_transform (t2 :: X2) b' = (Ok r2, b')
      /\ BoW_transform ((t1 :: X1) ++ (t2 :: X2)) b' = (Ok (r1 ++ r2)%list, b'))
  /\ (exists r1 r2 : list (list R),
        TfIdf_transform (t1 :: X1) t' = (Ok r1, t')
        /\ TfIdf_transform (t2 :: X2) t' = (Ok r2, t')
        /\ TfIdf_transform ((t1 :: X1) ++ (t2 :: X2)) t'
           = (Ok (r1 ++ r2)%list, t')).
Proof.
  intros b' t'. split.
  - unfold b'. rewrite BoW_fit_state.
    pose proof (BoW_fit_bow_NoDup (BoW_k b) corpus) as Hnd.
    eexists. eexists.
    split; [apply BoW_transform_eq, Hnd|].
    split; [apply BoW_transform_eq, Hnd|].
    rewrite <- map_app. rewrite <- app_comm_cons.
    apply BoW_transform_eq, Hnd.
  - unfold t'. rewrite TfIdf_fit_state.
    eexists. eexists.
    split; [apply TfIdf_transform_fitted|].
    split; [apply TfIdf_transform_fitted|].
    rewrite <- map_app. rewrite <- app_comm_cons.
    apply TfIdf_transform_fitted.
Qed.

(** X10. [get_vocabulary] returns nothing before [fit]; after [fit] it
    returns the stored vocabulary and leaves the object as it was, and
    [transform] of a non-empty batch returns one row per text, each as wide
    as that vocabulary. *)
Theorem BoW_get_vocabulary_shape {SI : SetIteration} (self : BoW)
  (corpus : list string) (text : string) (X : list string) :
  let self' := snd (BoW_fit corpus self) in
  BoW_get_vocabulary (BoW_init (BoW_k self)) = (Ok None, BoW_init (BoW_k self))
  /\ exists (bow : list string) (rows : list (list nat)),
       BoW_get_vocabulary self' = (Ok (Some bow), self')
       /\ BoW_transform (text :: X) self' = (Ok rows, self')
       /\ length rows = length (text :: X)
       /\ Forall (fun row => length row = length bow) rows.
Proof.
  intros self'. split; [reflexivity|].
  unfold self'. rewrite BoW_fit_state.
  pose proof (BoW_fit_bow_NoDup (BoW_k self) corpus) as Hnd.
  eexists. eexists.
  split; [reflexivity|].
  split; [apply BoW_transform_eq, Hnd|].
  split; [apply length_map|].
  apply Forall_forall. intros row Hrow.
  apply in_map_iff in Hrow. destruct Hrow as [x [<- _]].
  unfold bow_row. apply length_map.
Qed.

(** X11. [fit] starts afresh: fitting on a corpus after an earlier [fit] on
    another corpus leaves the object that fitting on the corpus alone
    leaves, for both components. *)
Theorem refit_discards_earlier_fit {SI : SetIteration} (b : BoW) (t : TfIdf)
  (earlier corpus : list string) :
  BoW_fit corpus (snd (BoW_fit earlier b)) = BoW_fit corpus b
  /\ TfIdf_fit corpus (snd (TfIdf_fit earlier t)) = TfIdf_fit corpus t.
Proof.
  split.
  - rewrite BoW_fit_state, !BoW_fit_eq. reflexivity.
  - rewrite TfIdf_fit_state, !TfIdf_fit_eq. reflexivity.
Qed.

(** ** Further properties of TfIdf *)

(** X12. With a positive k, [TfIdf.fit] keeps min(k, distinct) tokens, in
    order of non-increasing document frequency and without duplicates, and
    no token of the corpus that is dropped is in more documents than a token
    that is kept. *)
Theorem TfIdf_fit_keeps_highest_df {SI : SetIteration} (self : TfIdf)
  (z : Z) (X : list string) :
  TfIdf_k self = Some z -> (0 < z)%Z ->
  exists table : dict R,
    TfIdf_fit X self
    = (Ok (mkTfIdf (Some z) (TfIdf_normalize self) (Some table)),
       mkTfIdf (Some z) (TfIdf_normalize self) (Some table))
    /\ Z.of_nat (length table) = Z.min z (Z.of_nat (distinct_token_count X))
    /\ NoDup (keys table)
    /\ StronglySorted (fun a b => df X b <= df X a) (keys table)
    /\ (forall kept dropped,
          In kept (keys table) -> In dropped (tokens X) ->
          ~ In dropped (keys table) -> df X dropped <= df X kept).
Proof.
  intros Hk Hz. exists (fitted_table (Some z) X).
  destruct (fitted_table_set z X Hz) as [Hkeys [Hsorted Hlen]].
  split; [|split; [|split; [|split]]].
  - rewrite TfIdf_fit_eq, Hk. reflexivity.
  - exact Hlen.
  - rewrite Hkeys. apply NoDup_firstn, ranked_NoDup, set_iter_NoDup.
  - exact Hsorted.
  - rewrite Hkeys. intros kept dropped Hkept Hd Hnd.
    apply (firstn_sorted_cut (desc (df X)) (Z.to_nat z)
             (ranked (df X) (set_iter (tokens X)))).
    + apply ranked_sorted.
    + exact Hkept.
    + apply ranked_In, Hd.
    + exact Hnd.
Qed.

Lemma TfIdf_fit_keeps_highest_df_witness :
  exists table : dict R,
    TfIdf_fit ["a b"; "a"; "c a"] (TfIdf_init (Some 2%Z) false)
    = (Ok (mkTfIdf (Some 2%Z) false (Some table)),
       mkTfIdf (Some 2%Z) false (Some table))
    /\ Z.of_nat (length table)
       = Z.min 2 (Z.of_nat (distinct_token_count ["a b"; "a"; "c a"]))
    /\ NoDup (keys table)
    /\ StronglySorted
         (fun a b => df ["a b"; "a"; "c a"] b <= df ["a b"; "a"; "c a"] a)
         (keys table)
    /\ (forall kept dropped,
          In kept (keys table) -> In dropped (tokens ["a b"; "a"; "c a"]) ->
          ~ In dropped (keys table) ->
          df ["a b"; "a"; "c a"] dropped <= df ["a b"; "a"; "c a"] kept).
Proof.
  apply (TfIdf_fit_keeps_highest_df (TfIdf_init (Some 2%Z) false) 2
           ["a b"; "a"; "c a"]).
  - reflexivity.
  - lia.
Defined.

(** X13. With a negative k, [TfIdf.fit] drops every token: the table is
    empty, and [transform] of a non-empty batch returns rows of width
    zero. *)
Theorem TfIdf_fit_negative_k {SI : SetIteration} (self : TfIdf) (z : Z)
  (X : list string) (text : string) (batch : list string) :
  TfIdf_k self = Some z -> (z < 0)%Z ->
  TfIdf_fit X self
  = (Ok (mkTfIdf (Some z) (TfIdf_normalize self) (Some [])),
     mkTfIdf (Some z) (TfIdf_normalize self) (Some []))
  /\ TfIdf_transform (text :: batch)
       (mkTfIdf (Some z) (TfIdf_normalize self) (Some []))
     = (Ok (map (fun _ => []) (text :: batch)),
        mkTfIdf (Some z) (TfIdf_normalize self) (Some [])).
Proof.
  intros Hk Hz.
  assert (Hempty : fitted_table (Some z) X = []).
  { unfold fitted_table, retained, truthy.
    destruct (z =? 0)%Z eqn:E; [apply Z.eqb_eq in E; lia|]. simpl.
    replace (Z.to_nat z) with 0 by lia. reflexivity. }
  split.
  - rewrite TfIdf_fit_eq, Hk, Hempty. reflexivity.
  - change (@nil (string * R)) with (tabulate (fun _ => 0%R) []).
    rewrite TfIdf_transform_eq by constructor.
    f_equal. f_equal. apply map_ext. intros s.
    unfold TfIdf_row. destruct (TfIdf_normalize self); reflexivity.
Qed.

Lemma TfIdf_fit_negative_k_witness :
  TfIdf_fit ["a b"; "a"] (TfIdf_init (Some (-1)%Z) true)
  = (Ok (mkTfIdf (Some (-1)%Z) true (Some [])),
     mkTfIdf (Some (-1)%Z) true (Some []))
  /\ TfIdf_transform ["a"; "b"] (mkTfIdf (Some (-1)%Z) true (Some []))
     = (Ok [[]; []], mkTfIdf (Some (-1)%Z) true (Some [])).
Proof.
  apply (TfIdf_fit_negative_k (TfIdf_init (Some (-1)%Z) true) (-1)
           ["a b"; "a"] "a" ["b"]).
  - reflexivity.
  - lia.
Defined.

(** X14. With k unset, or set to 0, [TfIdf.fit] keeps every distinct token of
    the corpus, each once, in the iteration order of the set of tokens. *)
Theorem TfIdf_fit_keeps_all {SI : SetIteration} (self : TfIdf)
  (X : list string) :
  truthy (TfIdf_k self) = false ->
  exists table : dict R,
    TfIdf_fit X self
    = (Ok (mkTfIdf (TfIdf_k self) (TfIdf_normalize self) (Some table)),
       mkTfIdf (TfIdf_k self) (TfIdf_normalize self) (Some table))
    /\ keys table = set_iter (split (join " " X))
    /\ NoDup (keys table)
    /\ (forall w, In w (keys table) <-> In w (tokens X))
    /\ length table = distinct_token_count X.
Proof.
  intros Hk. exists (fitted_table (TfIdf_k self) X).
  assert (Hkeys : keys (fitted_table (TfIdf_k self) X) = set_iter (tokens X)).
  { unfold fitted_table, retained. rewrite Hk. apply keys_tabulate. }
  split; [apply TfIdf_fit_eq|].
  rewrite split_join, Hkeys.
  split; [reflexivity|]. split; [apply set_iter_NoDup|].
  split; [intros w; apply set_iter_In|].
  unfold keys in Hkeys. rewrite <- (length_map fst), Hkeys.
  apply set_iter_length.
Qed.

Lemma TfIdf_fit_keeps_all_witness :
  exists table : dict R,
    TfIdf_fit ["a b"; "a"] (TfIdf_init None false)
    = (Ok (mkTfIdf None false (Some table)), mkTfIdf None false (Some table))
    /\ keys table = set_iter (split (join " " ["a b"; "a"]))
    /\ NoDup (keys table)
    /\ (forall w, In w (keys table) <-> In w (tokens ["a b"; "a"]))
    /\ length table = distinct_token_count ["a b"; "a"].
Proof.
  apply (TfIdf_fit_keeps_all (TfIdf_init None false) ["a b"; "a"]).
  reflexivity.
Defined.

Lemma ratio_eq_one (N d : nat) :
  (INR N / INR (d + 1) = 1)%R <-> d + 1 = N.
Proof.
  assert (Hd : (0 < INR (d + 1))%R) by (apply lt_0_INR; lia).
  split; intros H.
  - symmetry. apply INR_eq.
    apply (Rmult_eq_compat_r (INR (d + 1))) in H.
    unfold Rdiv in H. rewrite Rmult_assoc, Rinv_l in H by lra. lra.
  - rewrite H. unfold Rdiv. apply Rinv_r.
    rewrite <- H. lra.
Qed.

Lemma ratio_gt_one (N d : nat) :
  (1 < INR N / INR (d + 1))%R <-> d + 1 < N.
Proof.
  assert (Hd : (0 < INR (d + 1))%R) by (apply lt_0_INR; lia).
  split; intros H.
  - apply INR_lt.
    apply (Rmult_lt_compat_r (INR (d + 1))) in H; [|exact Hd].
    unfold Rdiv in H. rewrite Rmult_assoc, Rinv_l in H by lra. lra.
  - apply lt_INR in H.
    apply (Rmult_lt_reg_r (INR (d + 1))); [exact Hd|].
    unfold Rdiv. rewrite Rmult_assoc, Rinv_l by lra. lra.
Qed.

Lemma ln_ratio_antitone (N d1 d2 : nat) :
  1 <= N -> d1 <= d2 ->
  (ln (INR N / INR (d2 + 1)) <= ln (INR N / INR (d1 + 1)))%R.
Proof.
  intros HN Hle.
  assert (H1 : (0 < INR (d1 + 1))%R) by (apply lt_0_INR; lia).
  assert (H2 : (0 < INR (d2 + 1))%R) by (apply lt_0_INR; lia).
  assert (HNr : (0 < INR N)%R) by (apply lt_0_INR; lia).
  destruct (Nat.eq_dec d1 d2) as [->|Hne]; [lra|].
  left. apply ln_increasing; [apply ratio_pos, HN|].
  unfold Rdiv. apply Rmult_lt_compat_l; [exact HNr|].
  apply Rinv_lt_contravar; [apply Rmult_lt_0_compat; assumption|].
  apply lt_INR. lia.
Qed.

Lemma ln_sign (x : R) :
  (0 < x)%R ->
  ((ln x = 0)%R <-> (x = 1)%R) /\ ((0 < ln x)%R <-> (1 < x)%R)
  /\ ((ln x < 0)%R <-> (x < 1)%R).
Proof.
  intros Hx. split; [|split]; split; intros H.
  - apply ln_inv; [exact Hx|lra|]. rewrite ln_1. exact H.
  - rewrite H. apply ln_1.
  - apply ln_lt_inv; [lra|exact Hx|]. rewrite ln_1. exact H.
  - rewrite <- ln_1. apply ln_increasing; lra.
  - apply ln_lt_inv; [exact Hx|lra|]. rewrite ln_1. exact H.
  - rewrite <- ln_1. apply ln_increasing; lra.
Qed.

(** X15. In the table [TfIdf.fit] stores, a token found in more documents
    never has a higher score than a token found in fewer. *)
Theorem idf_decreases_with_df {SI : SetIteration} (self : TfIdf)
  (X : list string) :
  exists table : dict R,
    TfIdf_fit X self
    = (Ok (mkTfIdf (TfIdf_k self) (TfIdf_normalize self) (Some table)),
       mkTfIdf (TfIdf_k self) (TfIdf_normalize self) (Some table))
    /\ forall w1 v1 w2 v2,
         In (w1, v1) table -> In (w2, v2) table ->
         df X w1 <= df X w2 -> (v2 <= v1)%R.
Proof.
  exists (fitted_table (TfIdf_k self) X). split; [apply TfIdf_fit_eq|].
  intros w1 v1 w2 v2 H1 H2 Hle.
  apply fitted_table_In in H1, H2.
  destruct H1 as [Hw1 ->], H2 as [_ ->]. unfold idf_score.
  apply ln_ratio_antitone; [|exact Hle].
  pose proof (df_pos X w1 Hw1). pose proof (df_le_length X w1). lia.
Qed.

(** X16. The sign of a score is read off the document frequency: the score
    is zero exactly for a token found in all documents but one, positive
    exactly for a token missing from at least two, and negative exactly for
    a token found in all of them. *)
Theorem idf_sign {SI : SetIteration} (self : TfIdf) (X : list string) :
  exists table : dict R,
    TfIdf_fit X self
    = (Ok (mkTfIdf (TfIdf_k self) (TfIdf_normalize self) (Some table)),
       mkTfIdf (TfIdf_k self) (TfIdf_normalize self) (Some table))
    /\ forall w v, In (w, v) table ->
         (v = 0%R <-> df X w + 1 = length X)
         /\ ((0 < v)%R <-> df X w + 1 < length X)
         /\ ((v < 0)%R <-> df X w = length X).
Proof.
  exists (fitted_table (TfIdf_k self) X). split; [apply TfIdf_fit_eq|].
  intros w v H. apply fitted_table_In in H. destruct H as [Hw ->].
  pose proof (df_pos X w Hw) as Hpos. pose proof (df_le_length X w) as Hle.
  assert (HN : 1 <= length X) by lia.
  destruct (ln_sign _ (ratio_pos (length X) (df X w) HN)) as [H0 [Hp Hn]].
  unfold idf_score. split; [|split].
  - rewrite H0. apply ratio_eq_one.
  - rewrite Hp. apply ratio_gt_one.
  - rewrite Hn. split; intros H.
    + destruct (Nat.eq_dec (df X w) (length X)) as [E|E]; [exact E|].
      exfalso. assert (Hlt : df X w + 1 <= length X) by lia.
      apply Nat.lt_eq_cases in Hlt. destruct Hlt as [Hlt|Heq].
      * apply ratio_gt_one in Hlt. lra.
      * apply ratio_eq_one in Heq. lra.
    + assert (Hneg : (ln (INR (length X) / INR (df X w + 1)) < 0)%R).
      { apply ln_ratio_neg; lia. }
      apply Hn, Hneg.
Qed.

(** X17. Without normalisation, [TfIdf.transform] of a non-empty batch
    returns one row per text, each as wide as the table, and entry i of the
    row of a text is the number of occurrences in the text of the i-th token
    of the table times that token's score. *)
Theorem TfIdf_transform_raw {SI : SetIteration} (k : option Z)
  (old : option (dict R)) (corpus : list string) (text : string)
  (X : list string) :
  exists (table : dict R) (rows : list (list R)) (row : list R),
    TfIdf_fit corpus (mkTfIdf k false old)
    = (Ok (mkTfIdf k false (Some table)), mkTfIdf k false (Some table))
    /\ TfIdf_transform (text :: X) (mkTfIdf k false (Some table))
       = (Ok rows, mkTfIdf k false (Some table))
    /\ length rows = length (text :: X)
    /\ Forall (fun r => length r = length table) rows
    /\ TfIdf_text_to_tf_idf (mkTfIdf k false (Some table)) text = Ok row
    /\ nth_error rows 0 = Some row
    /\ forall i w v, nth_error table i = Some (w, v) ->
         nth_error row i
         = Some (INR (count_occ string_dec (split text) w) * v)%R.
Proof.
  exists (fitted_table k corpus).
  exists (map (TfIdf_row false (fitted_table k corpus)) (text :: X)).
  exists (tf_idf_row (fitted_table k corpus) text).
  split; [apply (TfIdf_fit_eq corpus (mkTfIdf k false old))|].
  split; [apply TfIdf_transform_fitted|].
  split; [apply length_map|].
  split.
  - apply Forall_forall. intros r Hr. apply in_map_iff in Hr.
    destruct Hr as [x [<- _]]. unfold TfIdf_row. apply length_tf_idf_row.
  - split; [apply TfIdf_text_to_tf_idf_fitted|]. split; [reflexivity|].
    intros i w v Hi. unfold tf_idf_row.
    rewrite (map_nth_error _ _ _ Hi). reflexivity.
Qed.

Lemma In_sum_squares (y : R) (v : list R) :
  In y v -> (y * y <= sum_squares v)%R.
Proof.
  induction v as [|x v IH]; simpl; intros H; [contradiction|].
  pose proof (sum_squares_nonneg v) as Hv.
  pose proof (Rle_0_sqr x) as Hx. unfold Rsqr in Hx.
  destruct H as [->|H]; [lra|]. specialize (IH H). lra.
Qed.

Lemma normalized_entry_bound (v : list R) (x : R) :
  In x (normalized v) -> (Rabs x < 1)%R.
Proof.
  unfold normalized. intros H. apply in_map_iff in H.
  destruct H as [y [<- Hy]].
  pose proof EPS_pos as He. pose proof (l2norm_nonneg v) as Hn.
  assert (Hy' : (Rabs y <= l2norm v)%R).
  { rewrite <- sqrt_Rsqr_abs. unfold l2norm. apply sqrt_le_1.
    - apply Rle_0_sqr.
    - apply sum_squares_nonneg.
    - unfold Rsqr. apply In_sum_squares, Hy. }
  unfold Rdiv. rewrite Rabs_mult, Rabs_inv.
  rewrite (Rabs_pos_eq (l2norm v + EPS)) by lra.
  apply (Rmult_lt_reg_r (l2norm v + EPS)); [lra|].
  rewrite Rmult_assoc, Rinv_l by lra. lra.
Qed.

(** X18. With normalize=True no entry of a row is below -1 or above 1: an
    entry is at most the vector's norm in absolute value, and is divided by
    the norm plus EPS. *)
Theorem TfIdf_normalized_entries_bounded {SI : SetIteration} (k : option Z)
  (old : option (dict R)) (corpus : list string) (text : string) :
  exists (table : dict R) (raw row : list R),
    TfIdf_fit corpus (mkTfIdf k true old)
    = (Ok (mkTfIdf k true (Some table)), mkTfIdf k true (Some table))
    /\ tf_idf_raw table text = Ok raw
    /\ TfIdf_text_to_tf_idf (mkTfIdf k true (Some table)) text = Ok row
    /\ length row = length table
    /\ (forall y, In y raw -> (Rabs y <= l2norm raw)%R)
    /\ forall x, In x row -> (-1 <= x <= 1)%R.
Proof.
  exists (fitted_table k corpus).
  exists (tf_idf_row (fitted_table k corpus) text).
  exists (normalized (tf_idf_row (fitted_table k corpus) text)).
  split; [apply (TfIdf_fit_eq corpus (mkTfIdf k true old))|].
  split; [apply tf_idf_raw_fitted|].
  split; [exact (TfIdf_text_to_tf_idf_fitted k k true corpus text)|].
  split; [rewrite length_normalized; apply length_tf_idf_row|].
  split.
  - intros y Hy. rewrite <- sqrt_Rsqr_abs. unfold l2norm. apply sqrt_le_1.
    + apply Rle_0_sqr.
    + apply sum_squares_nonneg.
    + unfold Rsqr. apply In_sum_squares, Hy.
  - intros x Hx. apply normalized_entry_bound in Hx.
    apply Rabs_def2 in Hx. lra.
Qed.

(** X19. The row [TfIdf] gives a text depends on the tokens of the text as a
    bag only, with or without normalisation. *)
Theorem TfIdf_row_ignores_token_order {SI : SetIteration} (self : TfIdf)
  (X : list string) (t1 t2 : string) :
  Permutation (split t1) (split t2) ->
  exists row : list R,
    TfIdf_text_to_tf_idf (snd (TfIdf_fit X self)) t1 = Ok row
    /\ TfIdf_text_to_tf_idf (snd (TfIdf_fit X self)) t2 = Ok row.
Proof.
  intros Hp. rewrite TfIdf_fit_state.
  eexists. split; [apply TfIdf_text_to_tf_idf_fitted|].
  rewrite TfIdf_text_to_tf_idf_fitted. f_equal.
  assert (Hrow : tf_idf_row (fitted_table (TfIdf_k self) X) t2
                 = tf_idf_row (fitted_table (TfIdf_k self) X) t1).
  { unfold tf_idf_row. apply map_ext. intros wv.
    rewrite (proj1 (Permutation_count_occ string_dec _ _) Hp (fst wv)).
    reflexivity. }
  unfold TfIdf_row. rewrite Hrow. reflexivity.
Qed.

Lemma TfIdf_row_ignores_token_order_witness :
  exists row : list R,
    TfIdf_text_to_tf_idf (snd (TfIdf_fit ["a b"; "a"] (TfIdf_init None true)))
      "a b" = Ok row
    /\ TfIdf_text_to_tf_idf (snd (TfIdf_fit ["a b"; "a"] (TfIdf_init None true)))
         " b  a" = Ok row.
Proof.
  apply (TfIdf_row_ignores_token_order (TfIdf_init None true) ["a b"; "a"]
           "a b" " b  a").
  apply perm_swap.
Defined.

(** X20. Every token [BoW.fit] puts in the vocabulary, and every key of the
    table [TfIdf.fit] stores, is a non-empty string without whitespace that
    [split] returns as it is. *)
Theorem fitted_tokens_well_formed {SI : SetIteration} (b : BoW) (t : TfIdf)
  (X : list string) :
  exists (bow : list string) (table : dict R),
    BoW_fit X b = (Ok (mkBoW (BoW_k b) (Some bow)), mkBoW (BoW_k b) (Some bow))
    /\ TfIdf_fit X t
       = (Ok (mkTfIdf (TfIdf_k t) (TfIdf_normalize t) (Some table)),
          mkTfIdf (TfIdf_k t) (TfIdf_normalize t) (Some table))
    /\ forall w, In w bow \/ In w (keys table) ->
         w <> "" /\ no_space w = true /\ split w = [w].
Proof.
  eexists. exists (fitted_table (TfIdf_k t) X).
  split; [apply BoW_fit_eq|]. split; [apply TfIdf_fit_eq|].
  intros w Hw.
  assert (Htok : In w (tokens X)).
  { destruct Hw as [Hw|Hw].
    - destruct (slice_to_firstn (BoW_k b)
                  (ranked (occurrences X) (set_iter (tokens X)))) as [m Hm].
      rewrite Hm in Hw. apply firstn_incl in Hw. apply ranked_In in Hw.
      exact Hw.
    - unfold fitted_table in Hw. rewrite keys_tabulate in Hw.
      apply retained_incl in Hw. apply (proj1 (set_iter_In _ _)), Hw. }
  split; [|split].
  - unfold tokens in Htok. apply in_flat_map in Htok.
    destruct Htok as [d [_ Hd]]. unfold split in Hd.
    apply split_from_tokens in Hd; [tauto|reflexivity].
  - unfold tokens in Htok. apply in_flat_map in Htok.
    destruct Htok as [d [_ Hd]]. unfold split in Hd.
    apply split_from_tokens in Hd; [tauto|reflexivity].
  - apply (tokens_split X), Htok.
Qed.
